(** * A least-recently-used cache and its mutex wrapper

    Shallow embedding of the Go package [lru]: the generic type [LRU[K, V]]
    with its methods, and [MutexLRU[K, V]], which guards one [LRU] with a
    [sync.RWMutex].  The package keeps its entries in a [container/list]
    doubly linked list and indexes the list elements by key in a Go map. *)

From stdpp Require Import gmap strings list fin_maps.

Local Open Scope Z_scope.

(** ** Outcomes of a call

    A Go call returns, panics, or never returns.  The loops of [Resize] and
    [Clear] and the traversals of [All] and [Backward] are bounded by a fuel
    argument, a call blocked on a mutex that nobody will release is a
    deadlock, and unlocking a mutex that is not locked is a fatal error of
    the runtime. *)

Inductive failure : Type :=
| Panic
| OutOfFuel
| Deadlock
| Fatal.

Inductive result (A : Type) : Type :=
| Ok (a : A)
| Fail (f : failure).

Arguments Ok {A} a.
Arguments Fail {A} f.

Global Instance result_ret : MRet result := λ A a, Ok a.
Global Instance result_bind : MBind result := λ A B f r,
  match r with
  | Ok a => f a
  | Fail e => Fail e
  end.

(** A call that does not fail on a mutex: it returns, with [Q], or it
    panics or runs out of fuel. *)
Definition lock_safe {A} (Q : A → Prop) (r : result A) : Prop :=
  match r with
  | Ok a => Q a
  | Fail f => f = Panic ∨ f = OutOfFuel
  end.

(** Go's zero value of a type. *)
Class Zero (A : Type) : Type := zero : A.
Global Instance Z_zero : Zero Z := 0.
Global Instance string_zero : Zero string := EmptyString.

(** ** The list of [container/list]

    A [*list.Element] is an address; the list is the sequence of its live
    elements, front first, each with the [Value] it holds.  Elements are
    allocated by [PushFront] at addresses never used before. *)

Abbreviation addr := nat.

Module GoList.
Section list.
Context {A : Type}.

Record List : Type := mkList {
  elems : list (addr * A);
  unused : addr
}.

Definition New : List := {| elems := []; unused := O |}.

Definition Len (l : List) : Z := Z.of_nat (length (elems l)).

Definition Front (l : List) : option (addr * A) := head (elems l).

Definition Back (l : List) : option (addr * A) := last (elems l).

Fixpoint lookup_elem (e : addr) (es : list (addr * A)) : option A :=
  match es with
  | [] => None
  | x :: es' => if decide (x.1 = e) then Some x.2 else lookup_elem e es'
  end.

(** [e.Value], for an element of the list; [None] is the nil [Value] of
    an element that has left the list. *)
Definition Value (e : addr) (l : List) : option A := lookup_elem e (elems l).

Definition drop_elem (e : addr) (es : list (addr * A)) : list (addr * A) :=
  filter (λ x, x.1 ≠ e) es.

Definition PushFront (v : A) (l : List) : addr * List :=
  (unused l, {| elems := (unused l, v) :: elems l; unused := S (unused l) |}).

(** [MoveToFront] does nothing for an element that is not in the list. *)
Definition MoveToFront (e : addr) (l : List) : List :=
  match Value e l with
  | Some v => {| elems := (e, v) :: drop_elem e (elems l); unused := unused l |}
  | None => l
  end.

Definition Remove (e : addr) (l : List) : List :=
  {| elems := drop_elem e (elems l); unused := unused l |}.

(** A write through the pointer held in [e.Value]. *)
Definition Store (e : addr) (v : A) (l : List) : List :=
  {| elems := (λ x, if decide (x.1 = e) then (e, v) else x) <$> elems l;
     unused := unused l |}.

Fixpoint next_elem (e : addr) (es : list (addr * A)) : option addr :=
  match es with
  | [] => None
  | x :: es' => if decide (x.1 = e) then fst <$> head es' else next_elem e es'
  end.

(** [e.Next()] and [e.Prev()]: nil at the ends and for an element that has
    left the list. *)
Definition Next (e : addr) (l : List) : option addr := next_elem e (elems l).

Definition Prev (e : addr) (l : List) : option addr :=
  next_elem e (reverse (elems l)).
End list.
Arguments List : clear implicits.
End GoList.

(** ** The cache

    The capacity and the lengths are Go [int]s that the code only compares
    and, in [Resize], counts up to the number of entries: they are modelled
    in [Z], and nothing wraps around. *)

Module LRU.
Section engine.
Context {K V U : Type} `{Countable K} `{Zero K} `{Zero V}.

Record item : Type := mkItem {
  key : K;
  value : V
}.

(** One call of the eviction callback: its arguments, and the index and
    the list as they were when it was called. *)
Record event : Type := Evicted {
  ev_key : K;
  ev_value : V;
  ev_elem : gmap K addr;
  ev_items : GoList.List item
}.

(** The fields [elem], [items] and [size] of the struct, the calls of the
    eviction callback so far, oldest first, and the state [user] of the
    surrounding program, which caller-supplied code may read and write. *)
Record data : Type := mkData {
  elem : gmap K addr;
  items : GoList.List item;
  size : Z;
  trace : list event;
  user : U
}.

(** Caller-supplied code runs on everything it can reach: the cache it
    captured and its own state.  It may call any method of the cache but
    [OnEvicted]: the callback registered is not part of [data]. *)
Definition callback : Type := K → V → data → result data.

Record t : Type := mkLRU {
  state : data;
  evicted : option callback
}.

Definition with_state (lru : t) (d : data) : t :=
  {| state := d; evicted := evicted lru |}.

Definition New (n : Z) (u : U) : t :=
  {| state := {| elem := ∅; items := GoList.New; size := n;
                 trace := []; user := u |};
     evicted := None |}.

Definition OnEvicted (lru : t) (cb : option callback) : t :=
  {| state := state lru; evicted := cb |}.

Definition Len (lru : t) : Z := GoList.Len (items (state lru)).

(** [lru.evicted(k, v)] behind its nil check, run on the state [d]. *)
Definition notify (lru : t) (k : K) (v : V) (d : data) : result data :=
  match evicted lru with
  | None => Ok d
  | Some cb =>
      cb k v {| elem := elem d; items := items d; size := size d;
                trace := trace d ++ [Evicted k v (elem d) (items d)];
                user := user d |}
  end.

Definition RemoveOldest (lru : t) : result (K * V * bool * t) :=
  let d := state lru in
  match GoList.Back (items d) with
  | None => Ok (zero, zero, false, lru)
  | Some (e, it) =>
      d' ← notify lru (key it) (value it)
             {| elem := delete (key it) (elem d);
                items := GoList.Remove e (items d);
                size := size d; trace := trace d; user := user d |};
      Ok (key it, value it, true, with_state lru d')
  end.

Definition Set_ (lru : t) (k : K) (v : V) : result t :=
  let d := state lru in
  match elem d !! k with
  | Some e =>
      let l := GoList.MoveToFront e (items d) in
      match GoList.Value e l with
      | None => Fail Panic
      | Some it =>
          Ok (with_state lru
                {| elem := elem d;
                   items := GoList.Store e {| key := key it; value := v |} l;
                   size := size d; trace := trace d; user := user d |})
      end
  | None =>
      let '(e, l) := GoList.PushFront {| key := k; value := v |} (items d) in
      let lru' := with_state lru
                    {| elem := <[k := e]> (elem d); items := l;
                       size := size d; trace := trace d; user := user d |} in
      if bool_decide (0 < size d ∧ size d < GoList.Len l)
      then '(_, lru'') ← RemoveOldest lru'; Ok lru''
      else Ok lru'
  end.

Definition Get (lru : t) (k : K) : result (V * bool * t) :=
  let d := state lru in
  match elem d !! k with
  | Some e =>
      let l := GoList.MoveToFront e (items d) in
      match GoList.Value e l with
      | None => Fail Panic
      | Some it =>
          Ok (value it, true,
              with_state lru
                {| elem := elem d; items := l; size := size d;
                   trace := trace d; user := user d |})
      end
  | None => Ok (zero, false, lru)
  end.

Definition Pick (lru : t) (k : K) : result (V * bool * t) :=
  let d := state lru in
  match elem d !! k with
  | Some e =>
      match GoList.Value e (items d) with
      | None => Fail Panic
      | Some it => Ok (value it, true, lru)
      end
  | None => Ok (zero, false, lru)
  end.

Definition Remove (lru : t) (k : K) : result (V * bool * t) :=
  let d := state lru in
  match elem d !! k with
  | Some e =>
      match GoList.Value e (items d) with
      | None => Fail Panic
      | Some it =>
          d' ← notify lru (key it) (value it)
                 {| elem := delete (key it) (elem d);
                    items := GoList.Remove e (items d);
                    size := size d; trace := trace d; user := user d |};
          Ok (value it, true, with_state lru d')
      end
  | None => Ok (zero, false, lru)
  end.

(** The loop of [Resize]: [n] is the argument, [count] the named result. *)
Fixpoint Resize_loop (fuel : nat) (n count : Z) (lru : t) : result (Z * t) :=
  if bool_decide (n < Len lru)
  then match fuel with
       | O => Fail OutOfFuel
       | S fuel' =>
           '(_, lru') ← RemoveOldest lru;
           Resize_loop fuel' n (count + 1) lru'
       end
  else Ok (count, lru).

Definition Resize (fuel : nat) (lru : t) (n : Z) : result (Z * t) :=
  let d := state lru in
  Resize_loop fuel n 0
    (with_state lru {| elem := elem d; items := items d; size := n;
                       trace := trace d; user := user d |}).

Fixpoint Clear (fuel : nat) (lru : t) : result t :=
  if bool_decide (0 < Len lru)
  then match fuel with
       | O => Fail OutOfFuel
       | S fuel' => '(_, lru') ← RemoveOldest lru; Clear fuel' lru'
       end
  else Ok lru.

(** The consumer of an iterator: [yield] with the variables it captured
    (of type [A]) and the state it can reach. *)
Definition consumer (A : Type) : Type :=
  K → V → A → data → result (bool * A * data).

(** The loops of [All] and [Backward]: the successor is read before the
    element is yielded, and followed afterwards. *)
Fixpoint All_loop {A} (fuel : nat) (yield : consumer A)
    (cur : option addr) (acc : A) (d : data) : result (A * data) :=
  match cur with
  | None => Ok (acc, d)
  | Some e =>
      match fuel with
      | O => Fail OutOfFuel
      | S fuel' =>
          let next := GoList.Next e (items d) in
          match GoList.Value e (items d) with
          | None => Fail Panic
          | Some it =>
              '(more, acc', d') ← yield (key it) (value it) acc d;
              if more : bool then All_loop fuel' yield next acc' d'
              else Ok (acc', d')
          end
      end
  end.

Fixpoint Backward_loop {A} (fuel : nat) (yield : consumer A)
    (cur : option addr) (acc : A) (d : data) : result (A * data) :=
  match cur with
  | None => Ok (acc, d)
  | Some e =>
      match fuel with
      | O => Fail OutOfFuel
      | S fuel' =>
          let prev := GoList.Prev e (items d) in
          match GoList.Value e (items d) with
          | None => Fail Panic
          | Some it =>
              '(more, acc', d') ← yield (key it) (value it) acc d;
              if more : bool then Backward_loop fuel' yield prev acc' d'
              else Ok (acc', d')
          end
      end
  end.

Definition All {A} (fuel : nat) (lru : t) (yield : consumer A) (acc : A)
    : result (A * t) :=
  '(acc', d') ← All_loop fuel yield
                  (fst <$> GoList.Front (items (state lru))) acc (state lru);
  Ok (acc', with_state lru d').

Definition Backward {A} (fuel : nat) (lru : t) (yield : consumer A) (acc : A)
    : result (A * t) :=
  '(acc', d') ← Backward_loop fuel yield
                  (fst <$> GoList.Back (items (state lru))) acc (state lru);
  Ok (acc', with_state lru d').

(** A consumer that visits everything and records what it is given. *)
Definition collect : consumer (list (K * V)) :=
  λ k v acc d, Ok (true, acc ++ [(k, v)], d).

(** *** Observations and invariants *)

(** The entries of the cache, most recently used first. *)
Definition contents (lru : t) : list item := (GoList.elems (items (state lru))).*2.

Definition pairs (its : list item) : list (K * V) := (λ it, (key it, value it)) <$> its.

Definition calls (d : data) : list (K * V) := (λ ev, (ev_key ev, ev_value ev)) <$> trace d.

(** The index and the list describe the same entries: the elements of
    the list have distinct addresses, all allocated, every key of the index
    points to an element holding that key, and every element is indexed
    under its own key. *)
Definition consistent (m : gmap K addr) (l : GoList.List item) : Prop :=
  NoDup (GoList.elems l).*1
  ∧ Forall (λ x, (x.1 < GoList.unused l)%nat) (GoList.elems l)
  ∧ map_Forall (λ k e, key <$> GoList.Value e l = Some k) m
  ∧ Forall (λ x, m !! key x.2 = Some x.1) (GoList.elems l).

Definition wf (d : data) : Prop := consistent (elem d) (items d).

Global Instance wf_dec d : Decision (wf d).
Proof. unfold wf, consistent. apply _. Defined.

(** The key of a callback call was neither in the index nor in the list
    when the call was made. *)
Definition detached (ev : event) : Prop :=
  ev_elem ev !! ev_key ev = None
  ∧ Forall (λ x, key x.2 ≠ ev_key ev) (GoList.elems (ev_items ev)).

(** [d'] comes after [d]: the cache is still well formed, and the calls
    of the callback made in between were calls for detached entries. *)
Definition extends (d d' : data) : Prop :=
  wf d' ∧ ∃ new, trace d' = trace d ++ new ∧ Forall detached new.

(** What caller-supplied code does to the cache, it does through the
    methods of the cache. *)
Definition respects (cb : callback) : Prop :=
  ∀ k v d d', wf d → cb k v d = Ok d' → extends d d'.

(** A callback that leaves the cache alone. *)
Definition quiet (cb : callback) : Prop :=
  ∀ k v d, ∃ u, cb k v d = Ok {| elem := elem d; items := items d;
                                 size := size d; trace := trace d; user := u |}.

(** A cache whose registered callback respects it, or leaves it alone. *)
Definition respectful (lru : t) : Prop :=
  ∀ cb, evicted lru = Some cb → respects cb.

Definition undisturbed (lru : t) : Prop :=
  ∀ cb, evicted lru = Some cb → quiet cb.

(** Caller-supplied code that keeps a property of the state of the
    surrounding program, and does not fail on a mutex. *)
Definition keeps (P : U → Prop) (cb : callback) : Prop :=
  ∀ k v d, P (user d) → lock_safe (λ d', P (user d')) (cb k v d).

Definition keeps_yield {A} (P : U → Prop) (yield : consumer A) : Prop :=
  ∀ k v acc d, P (user d) → lock_safe (λ r, P (user r.2)) (yield k v acc d).

(** [lru'] is [lru] after a call that kept [P]: the same callback is
    registered. *)
Definition kept (P : U → Prop) (lru lru' : t) : Prop :=
  P (user (state lru')) ∧ evicted lru' = evicted lru.

Inductive op : Type :=
| OpSet (k : K) (v : V)
| OpGet (k : K)
| OpPick (k : K)
| OpRemove (k : K)
| OpRemoveOldest
| OpResize (n : Z)
| OpClear.

Definition exec (fuel : nat) (o : op) (lru : t) : result t :=
  match o with
  | OpSet k v => Set_ lru k v
  | OpGet k => '(_, lru') ← Get lru k; Ok lru'
  | OpPick k => '(_, lru') ← Pick lru k; Ok lru'
  | OpRemove k => '(_, lru') ← Remove lru k; Ok lru'
  | OpRemoveOldest => '(_, lru') ← RemoveOldest lru; Ok lru'
  | OpResize n => '(_, lru') ← Resize fuel lru n; Ok lru'
  | OpClear => Clear fuel lru
  end.

(** The states a cache goes through: made by [New], then changed by
    calls that return; a callback may be registered if it respects the
    cache. *)
Inductive reachable : t → Prop :=
| reachable_New n u : reachable (New n u)
| reachable_OnEvicted lru cb :
    reachable lru → (∀ c, cb = Some c → respects c) →
    reachable (OnEvicted lru cb)
| reachable_step lru fuel o lru' :
    reachable lru → exec fuel o lru = Ok lru' → reachable lru'.

(** A consumer that does to the cache what it does through the methods
    of the cache. *)
Definition respects_yield {A} (yield : consumer A) : Prop :=
  ∀ k v acc d r, wf d → yield k v acc d = Ok r → extends d r.2.

(** A consumer that decides from the entry it is given and from what it
    has accumulated, and touches nothing else. *)
Definition pure_consumer {A} (f : K → V → A → bool * A) : consumer A :=
  λ k v acc d, let '(more, acc') := f k v acc in Ok (more, acc', d).

(** What such a consumer accumulates when it is given the entries of a
    sequence in order, until it answers [false]. *)
Fixpoint visit {A} (f : K → V → A → bool * A) (acc : A) (kvs : list (K * V)) : A :=
  match kvs with
  | [] => acc
  | (k, v) :: rest =>
      let '(more, acc') := f k v acc in
      if more : bool then visit f acc' rest else acc'
  end.

(** A consumer that calls [Remove] on the cache it is traversing, for the
    key [target] picks from the key it is given, and records the entry.
    [ev] is the callback registered on that cache. *)
Definition removing (ev : option callback) (target : K → K)
    : consumer (list (K * V)) :=
  λ k v acc d,
    '(_, lru') ← Remove {| state := d; evicted := ev |} (target k);
    Ok (true, acc ++ [(k, v)], state lru').

(** The cache with another state of the surrounding program. *)
Definition with_user (lru : t) (u : U) : t :=
  with_state lru {| elem := elem (state lru); items := items (state lru);
                    size := size (state lru); trace := trace (state lru);
                    user := u |}.

Definition run_ops (fuel : nat) (lru : t) (os : list op) : result t :=
  foldl (λ r o, lru' ← r; exec fuel o lru') (Ok lru) os.

Definition run_sets (lru : t) (kvs : list (K * V)) : result t :=
  foldl (λ r kv, lru' ← r; Set_ lru' kv.1 kv.2) (Ok lru) kvs.
End engine.
Arguments item : clear implicits.
Arguments event : clear implicits.
Arguments data K V U {_ _}.
Arguments callback K V U {_ _}.
Arguments t K V U {_ _}.
Arguments consumer K V U {_ _} A.
End LRU.

(** ** The cache behind a mutex *)

Module MutexLRU.
Section wrapper.
Context {K V W : Type} `{Countable K} `{Zero K} `{Zero V}.

(** A [sync.RWMutex] as the one goroutine of the model sees it: [Lock] and
    [RLock] on a mutex they cannot take block for ever, and [Unlock] and
    [RUnlock] on a mutex that is not locked are fatal. *)
Record RWMutex : Type := mkRWMutex {
  writer : bool;
  readers : nat
}.

Definition Lock (mu : RWMutex) : result RWMutex :=
  if writer mu || negb (Nat.eqb (readers mu) O)
  then Fail Deadlock
  else Ok {| writer := true; readers := O |}.

Definition Unlock (mu : RWMutex) : result RWMutex :=
  if writer mu
  then Ok {| writer := false; readers := readers mu |}
  else Fail Fatal.

Definition RLock (mu : RWMutex) : result RWMutex :=
  if writer mu
  then Fail Deadlock
  else Ok {| writer := false; readers := S (readers mu) |}.

Definition RUnlock (mu : RWMutex) : result RWMutex :=
  match readers mu with
  | O => Fail Fatal
  | S n => Ok {| writer := writer mu; readers := n |}
  end.

(** What caller-supplied code can reach besides the cache: the mutex of
    the wrapper, which the closures made by [OnEvicted], [All] and
    [Backward] unlock and lock, and the variables [own] of the caller. *)
Record outside : Type := mkOutside {
  mut : RWMutex;
  own : W
}.

Abbreviation data := (LRU.data K V outside).
Abbreviation callback := (LRU.callback K V outside).
Abbreviation consumer := (LRU.consumer K V outside).

Record t : Type := mkMutexLRU {
  lru : LRU.t K V outside
}.

(** A call of a method of [m.mut]. *)
Definition on_mut (f : RWMutex → result RWMutex) (d : data) : result data :=
  mu ← f (mut (LRU.user d));
  Ok {| LRU.elem := LRU.elem d; LRU.items := LRU.items d;
        LRU.size := LRU.size d; LRU.trace := LRU.trace d;
        LRU.user := {| mut := mu; own := own (LRU.user d) |} |}.

Definition NewWithMutex (n : Z) (w : W) : t :=
  {| lru := LRU.New n {| mut := {| writer := false; readers := O |}; own := w |} |}.

(** [m.mut.Lock(); defer m.mut.Unlock()] around the body of a method, and
    the same with [RLock] and [RUnlock]. *)
Definition exclusive {A} (m : t)
    (body : LRU.t K V outside → result (A * LRU.t K V outside)) : result (A * t) :=
  d ← on_mut Lock (LRU.state (lru m));
  '(a, l) ← body (LRU.with_state (lru m) d);
  d' ← on_mut Unlock (LRU.state l);
  Ok (a, {| lru := LRU.with_state l d' |}).

Definition shared {A} (m : t)
    (body : LRU.t K V outside → result (A * LRU.t K V outside)) : result (A * t) :=
  d ← on_mut RLock (LRU.state (lru m));
  '(a, l) ← body (LRU.with_state (lru m) d);
  d' ← on_mut RUnlock (LRU.state l);
  Ok (a, {| lru := LRU.with_state l d' |}).

(** The closure [func(k, v) { m.mut.Unlock(); defer m.mut.Lock(); cb(k, v) }]. *)
Definition handoff (cb : callback) : callback :=
  λ k v d,
    d1 ← on_mut Unlock d;
    d2 ← cb k v d1;
    on_mut Lock d2.

(** The closure
    [func(key, value) bool { m.mut.Unlock(); defer m.mut.Lock(); return yield(key, value) }]. *)
Definition handoff_yield {A} (yield : consumer A) : consumer A :=
  λ k v acc d,
    d1 ← on_mut Unlock d;
    '(more, acc', d2) ← yield k v acc d1;
    d3 ← on_mut Lock d2;
    Ok (more, acc', d3).

Definition OnEvicted (m : t) (cb : callback) : result (unit * t) :=
  exclusive m (λ l, Ok (tt, LRU.OnEvicted l (Some (handoff cb)))).

Definition Set_ (m : t) (k : K) (v : V) : result (unit * t) :=
  exclusive m (λ l, l' ← LRU.Set_ l k v; Ok (tt, l')).

Definition Get (m : t) (k : K) : result (V * bool * t) :=
  exclusive m (λ l, LRU.Get l k).

Definition Pick (m : t) (k : K) : result (V * bool * t) :=
  shared m (λ l, LRU.Pick l k).

Definition Remove (m : t) (k : K) : result (V * bool * t) :=
  exclusive m (λ l, LRU.Remove l k).

Definition RemoveOldest (m : t) : result (K * V * bool * t) :=
  exclusive m (λ l, LRU.RemoveOldest l).

Definition Resize (fuel : nat) (m : t) (n : Z) : result (Z * t) :=
  exclusive m (λ l, LRU.Resize fuel l n).

Definition Len (m : t) : result (Z * t) :=
  shared m (λ l, Ok (LRU.Len l, l)).

Definition Clear (fuel : nat) (m : t) : result (unit * t) :=
  exclusive m (λ l, l' ← LRU.Clear fuel l; Ok (tt, l')).

Definition All {A} (fuel : nat) (m : t) (yield : consumer A) (acc : A)
    : result (A * t) :=
  exclusive m (λ l, LRU.All fuel l (handoff_yield yield) acc).

Definition Backward {A} (fuel : nat) (m : t) (yield : consumer A) (acc : A)
    : result (A * t) :=
  exclusive m (λ l, LRU.Backward fuel l (handoff_yield yield) acc).

(** *** The discipline of the lock *)

Definition unlocked (d : data) : Prop :=
  mut (LRU.user d) = {| writer := false; readers := O |}.

Definition write_locked (u : outside) : Prop :=
  mut u = {| writer := true; readers := O |}.

Definition held (d : data) : Prop := write_locked (LRU.user d).

(** The state with the mutex unlocked. *)
Definition released (d : data) : data :=
  {| LRU.elem := LRU.elem d; LRU.items := LRU.items d;
     LRU.size := LRU.size d; LRU.trace := LRU.trace d;
     LRU.user := {| mut := {| writer := false; readers := O |};
                    own := own (LRU.user d) |} |}.

(** Caller-supplied code that, called with the mutex unlocked, does not
    fail on the mutex and returns with the mutex unlocked, as the methods
    of the wrapper do. *)
Definition reentrant (cb : callback) : Prop :=
  ∀ k v d, unlocked d → lock_safe unlocked (cb k v d).

Definition reentrant_yield {A} (yield : consumer A) : Prop :=
  ∀ k v acc d, unlocked d → lock_safe (λ r, unlocked r.2) (yield k v acc d).

(** The callback of the cache, if any, is a closure made by [OnEvicted]. *)
Definition guarded (l : LRU.t K V outside) : Prop :=
  ∀ c, LRU.evicted l = Some c → ∃ cb, c = handoff cb ∧ reentrant cb.

Definition idle (m : t) : Prop :=
  unlocked (LRU.state (lru m)) ∧ guarded (lru m).

(** The calls of the methods of the wrapper. *)
Inductive call (A : Type) : Type :=
| CallOnEvicted (cb : callback)
| CallSet (k : K) (v : V)
| CallGet (k : K)
| CallPick (k : K)
| CallRemove (k : K)
| CallRemoveOldest
| CallResize (n : Z)
| CallLen
| CallClear
| CallAll (yield : consumer A) (acc : A)
| CallBackward (yield : consumer A) (acc : A).

Definition run {A} (fuel : nat) (c : call A) (m : t) : result t :=
  match c with
  | CallOnEvicted _ cb => '(_, m') ← OnEvicted m cb; Ok m'
  | CallSet _ k v => '(_, m') ← Set_ m k v; Ok m'
  | CallGet _ k => '(_, m') ← Get m k; Ok m'
  | CallPick _ k => '(_, m') ← Pick m k; Ok m'
  | CallRemove _ k => '(_, m') ← Remove m k; Ok m'
  | CallRemoveOldest _ => '(_, m') ← RemoveOldest m; Ok m'
  | CallResize _ n => '(_, m') ← Resize fuel m n; Ok m'
  | CallLen _ => '(_, m') ← Len m; Ok m'
  | CallClear _ => '(_, m') ← Clear fuel m; Ok m'
  | CallAll _ yield acc => '(_, m') ← All fuel m yield acc; Ok m'
  | CallBackward _ yield acc => '(_, m') ← Backward fuel m yield acc; Ok m'
  end.

(** The caller-supplied code of a call is [reentrant]. *)
Definition polite {A} (c : call A) : Prop :=
  match c with
  | CallOnEvicted _ cb => reentrant cb
  | CallAll _ yield _ | CallBackward _ yield _ => reentrant_yield yield
  | _ => True
  end.
(** The caller-supplied code of a call respects the cache. *)
Definition civil {A} (c : call A) : Prop :=
  match c with
  | CallOnEvicted _ cb => LRU.respects cb
  | CallAll _ yield _ | CallBackward _ yield _ => LRU.respects_yield yield
  | _ => True
  end.
End wrapper.
Arguments RWMutex : clear implicits.
Arguments outside : clear implicits.
Arguments call K V W {_ _} A.
Arguments t K V W {_ _}.
End MutexLRU.

(** ** Caches with string keys and integer values

    The caches and callbacks of the package's tests.  The state of the
    surrounding program is a log the callbacks may write to. *)

Module Examples.
Import LRU.

Abbreviation cache := (t string Z (list (string * Z))).

(** A callback that logs what is evicted. *)
Definition record : callback string Z (list (string * Z)) :=
  λ k v d, Ok {| elem := elem d; items := items d; size := size d;
                 trace := trace d; user := user d ++ [(k, v)] |}.

(** A callback that, when key "a" is evicted with value 0, sets "a" to
    999 in the cache it was evicted from.  The callback is registered on
    that cache, so the [Set] it calls may call it again, [depth] calls
    deep. *)
Fixpoint reinsert (depth : nat) : callback string Z (list (string * Z)) :=
  λ k v d,
    if bool_decide (k = "a" ∧ v = 0)
    then match depth with
         | O => Fail OutOfFuel
         | S depth' =>
             lru ← Set_ {| state := d; evicted := Some (reinsert depth') |}
                    "a" 999;
             Ok (state lru)
         end
    else Ok d.

(** A callback of the tests: the test fails unless the key evicted is
    the expected one. *)
Definition expect (k0 : string) : callback string Z (list (string * Z)) :=
  λ k v d, if bool_decide (k = k0) then Ok d else Fail Panic.

(** The cache of [TestResize] and [TestAll]: [New(10)], then the keys 1
    to 10 set, each to the value [f] gives it. *)
Definition one_to_ten (f : Z → Z) : result (t Z Z unit) :=
  run_sets (New 10 tt) ((λ i, (i, f i)) <$> [1; 2; 3; 4; 5; 6; 7; 8; 9; 10]).

Definition built (r : result cache) : cache :=
  match r with
  | Ok lru => lru
  | Fail _ => New 0 []
  end.

(** [New(3)], then "a", "b" and "c" set to 0, 1 and 2: without a
    callback, with the logging one, and with the re-inserting one. *)
Definition abc : list (string * Z) := [("a", 0); ("b", 1); ("c", 2)].

Definition plain_abc : cache := built (run_sets (New 3 []) abc).

Definition logged_abc : cache :=
  built (run_sets (OnEvicted (New 3 []) (Some record)) abc).

Definition reinserting_abc : cache :=
  built (run_sets (OnEvicted (New 3 []) (Some (reinsert 2))) abc).

(** ... and then "d" set to 3. *)
Definition reinserting_abcd : cache := built (Set_ reinserting_abc "d" 3).

(** [New(3)] with the re-inserting callback, then "a" set to 0. *)
Definition reinserting_a : cache :=
  built (run_sets (OnEvicted (New 3 []) (Some (reinsert 2))) [("a", 0)]).
(** The cache and the callback of [TestMutexOnEvictedSet]: the callback
    counts the evictions in a variable of the test, fails the test unless
    the values evicted are 0, 1, ... in this order, and sets "a" to 999
    through the wrapper when "a" is evicted.  The cache of the wrapper has
    this very callback registered, behind the closure of [OnEvicted]. *)
Abbreviation mcache := (MutexLRU.t string Z Z).

Fixpoint reinsert_locked (depth : nat)
    : callback string Z (MutexLRU.outside Z) :=
  λ k v d,
    if bool_decide (v ≠ MutexLRU.own (user d)) then Fail Panic
    else
      let d1 := {| elem := elem d; items := items d; size := size d;
                   trace := trace d;
                   user := {| MutexLRU.mut := MutexLRU.mut (user d);
                              MutexLRU.own := MutexLRU.own (user d) + 1 |} |} in
      if bool_decide (k = "a")
      then match depth with
           | O => Fail OutOfFuel
           | S depth' =>
               '(_, m) ← MutexLRU.Set_
                           {| MutexLRU.lru :=
                                {| state := d1;
                                   evicted := Some (MutexLRU.handoff
                                                      (reinsert_locked depth')) |} |}
                           "a" 999;
               Ok (state (MutexLRU.lru m))
           end
      else Ok d1.

Definition run_locked_sets (m : mcache) (kvs : list (string * Z)) : result mcache :=
  foldl (λ r kv, m' ← r; '(_, m'') ← MutexLRU.Set_ m' kv.1 kv.2; Ok m'') (Ok m) kvs.

Definition abcd : list (string * Z) := [("a", 0); ("b", 1); ("c", 2); ("d", 3)].

Definition built_locked (r : result (unit * mcache)) : mcache :=
  match r with
  | Ok (_, m) => m
  | Fail _ => MutexLRU.NewWithMutex 0 0
  end.

(** [NewWithMutex(3)] with the callback registered by [OnEvicted]. *)
Definition locked_reinserting : mcache :=
  built_locked (MutexLRU.OnEvicted (MutexLRU.NewWithMutex 3 0) (reinsert_locked 2)).

(** ... and then "a", "b" and "c" set to 0, 1 and 2. *)
Definition locked_abc : mcache :=
  match run_locked_sets locked_reinserting abc with
  | Ok m => m
  | Fail _ => MutexLRU.NewWithMutex 0 0
  end.

(** The same cache with the callback registered as it is, without the
    closure of [OnEvicted] around it. *)
Definition locked_without_handoff : mcache :=
  {| MutexLRU.lru :=
       OnEvicted (MutexLRU.lru (MutexLRU.NewWithMutex 3 0))
         (Some (reinsert_locked 2)) |}.
End Examples.

(** * Facts about the list *)

Section list_facts.
Context {A : Type}.
Import GoList.
Implicit Types (e : addr) (x : addr * A) (es : list (addr * A)) (l : List A).

Lemma lookup_elem_elem_of e es v : lookup_elem e es = Some v → (e, v) ∈ es.
Proof.
  induction es as [|[a w] es IH]; simpl; [done|].
  case_decide as Ha; simpl in Ha.
  - intros [= <-]. subst a. by left.
  - intros Hv. right. by apply IH.
Qed.

Lemma lookup_elem_None e es : lookup_elem e es = None ↔ e ∉ es.*1.
Proof.
  induction es as [|[a w] es IH]; simpl.
  - split; [intros _; apply not_elem_of_nil | done].
  - rewrite not_elem_of_cons. case_decide as Ha; simpl in Ha.
    + split; [done | intros [Hne _]; congruence].
    + rewrite IH. split; [intros ?; split; [congruence | done] | by intros [_ ?]].
Qed.

Lemma lookup_elem_NoDup e es v :
  NoDup es.*1 → (e, v) ∈ es → lookup_elem e es = Some v.
Proof.
  induction es as [|[a w] es IH]; simpl; [by intros _ ?%elem_of_nil|].
  rewrite NoDup_cons. intros [Hnotin Hnd] [Heq | Hin]%elem_of_cons.
  - simplify_eq. by rewrite decide_True.
  - case_decide as Ha; simpl in Ha; [|by apply IH].
    subst a. destruct Hnotin. by apply (list_elem_of_fmap_2 fst _ (e, v)).
Qed.

Lemma lookup_elem_is_Some e es : is_Some (lookup_elem e es) ↔ e ∈ es.*1.
Proof.
  rewrite <-not_eq_None_Some, lookup_elem_None.
  split; [apply dec_stable | by intros ? ?].
Qed.

Lemma elem_of_drop_elem x e es : x ∈ drop_elem e es ↔ x.1 ≠ e ∧ x ∈ es.
Proof. unfold drop_elem. by rewrite list_elem_of_filter. Qed.

Lemma drop_elem_not_elem_of e es : e ∉ (drop_elem e es).*1.
Proof.
  intros (x & -> & [Hne _]%elem_of_drop_elem)%list_elem_of_fmap. done.
Qed.

Lemma drop_elem_NoDup e es : NoDup es.*1 → NoDup (drop_elem e es).*1.
Proof.
  intros Hnd. apply (sublist_NoDup _ _ Hnd).
  apply fmap_sublist. unfold drop_elem. apply sublist_filter.
Qed.

Lemma drop_elem_id e es : e ∉ es.*1 → drop_elem e es = es.
Proof.
  induction es as [|x es IH]; [done|].
  rewrite fmap_cons, not_elem_of_cons. intros [Hne Hnotin].
  unfold drop_elem. rewrite filter_cons_True by (simpl; congruence).
  f_equal. by apply IH.
Qed.

Lemma drop_elem_app e es1 es2 :
  drop_elem e (es1 ++ es2) = drop_elem e es1 ++ drop_elem e es2.
Proof. apply filter_app. Qed.

(** Dropping an element takes exactly that element out of the list. *)
Lemma drop_elem_split e v es1 es2 :
  NoDup (es1 ++ (e, v) :: es2).*1 →
  drop_elem e (es1 ++ (e, v) :: es2) = es1 ++ es2.
Proof.
  rewrite fmap_app, fmap_cons, NoDup_app, NoDup_cons. simpl.
  intros (_ & Hdisj & Hnotin & _).
  rewrite drop_elem_app. unfold drop_elem at 2.
  rewrite filter_cons_False by (simpl; tauto).
  fold (drop_elem e es2). rewrite !drop_elem_id; [done..|].
  intros Hin. by apply (Hdisj e); [|left].
Qed.


Lemma drop_elem_last e v es :
  NoDup es.*1 → last es = Some (e, v) → drop_elem e es = removelast es.
Proof.
  intros Hnd [es' ->]%last_Some.
  rewrite removelast_last.
  pose proof (drop_elem_split e v es' []) as Hs. rewrite app_nil_r in Hs.
  by apply Hs.
Qed.

(** After [MoveToFront], the write through the element's value only
    changes the front of the list. *)
Lemma Store_MoveToFront e v w l :
  Value e l = Some w →
  Store e v (MoveToFront e l)
  = {| elems := (e, v) :: drop_elem e (elems l); unused := unused l |}.
Proof.
  intros Hw. unfold MoveToFront, Store. rewrite Hw. simpl.
  rewrite decide_True by done. do 2 f_equal.
  induction (elems l) as [|x es IH]; [done|].
  unfold drop_elem. rewrite filter_cons. case_decide as Hx; [|done].
  rewrite fmap_cons, decide_False by done. f_equal. apply IH.
Qed.

Lemma Value_MoveToFront e l : Value e (MoveToFront e l) = Value e l.
Proof.
  unfold MoveToFront. destruct (Value e l) as [w|] eqn:Hw; [|done].
  unfold Value. simpl. by rewrite decide_True.
Qed.

Lemma next_elem_split e v es1 es2 :
  e ∉ es1.*1 → next_elem e (es1 ++ (e, v) :: es2) = fst <$> head es2.
Proof.
  induction es1 as [|x es1 IH]; simpl.
  - intros _. by rewrite decide_True.
  - rewrite not_elem_of_cons. intros [Hne Hnotin].
    rewrite decide_False by congruence. by apply IH.
Qed.

Lemma NoDup_fmap_transfer {B C D} (f : B → C) (g : B → D) (bs : list B) :
  NoDup (f <$> bs) →
  (∀ b1 b2, b1 ∈ bs → b2 ∈ bs → g b1 = g b2 → f b1 = f b2) →
  NoDup (g <$> bs).
Proof.
  induction bs as [|b bs IH]; [constructor|].
  rewrite !fmap_cons, !NoDup_cons. intros [Hnotin Hnd] Hfg. split.
  - intros (b' & Hb' & Hin)%list_elem_of_fmap. destruct Hnotin.
    rewrite (Hfg b b'); [by apply list_elem_of_fmap_2 | by left | by right | done].
  - apply IH; [done|]. intros b1 b2 Hb1 Hb2. apply Hfg; by right.
Qed.

Lemma lookup_elem_split e v es1 es2 :
  e ∉ es1.*1 → lookup_elem e (es1 ++ (e, v) :: es2) = Some v.
Proof.
  induction es1 as [|x es1 IH]; simpl.
  - intros _. by rewrite decide_True.
  - rewrite not_elem_of_cons. intros [Hne Hnotin].
    rewrite decide_False by congruence. by apply IH.
Qed.
End list_facts.

(** * Facts about the cache *)

Section consistent_facts.
Context {K V : Type} `{Countable K}.
Import GoList LRU.
Implicit Types (m : gmap K addr) (l : List (item K V)) (x : addr * item K V)
  (es : list (addr * item K V)) (it : item K V) (e : addr) (k : K).

Lemma consistent_index m l k e :
  consistent m l → m !! k = Some e → ∃ v, (e, mkItem k v) ∈ elems l.
Proof.
  intros (_ & _ & Hm & _) Hk. specialize (Hm k e Hk). simpl in Hm.
  unfold Value in Hm. destruct (lookup_elem e (elems l)) as [[k' v]|] eqn:Hl;
    simplify_eq/=.
  exists v. by apply lookup_elem_elem_of.
Qed.

Lemma consistent_elem_of m l x :
  consistent m l → x ∈ elems l → m !! key x.2 = Some x.1.
Proof. intros (_ & _ & _ & Hl) Hx. by eapply Forall_forall in Hl. Qed.

Lemma consistent_Value m l e it :
  consistent m l → (e, it) ∈ elems l → Value e l = Some it.
Proof. intros (Hnd & _) Hin. by apply lookup_elem_NoDup. Qed.

(** An element is the one the index has for a key exactly when it holds
    that key. *)
Lemma consistent_addr_key m l k e x :
  consistent m l → m !! k = Some e → x ∈ elems l → x.1 = e ↔ key x.2 = k.
Proof.
  intros Hc Hk Hx. split.
  - intros <-. destruct Hc as (Hnd & _ & Hm & _).
    specialize (Hm k _ Hk). simpl in Hm. unfold Value in Hm.
    destruct x as [e it]. rewrite (lookup_elem_NoDup e _ it) in Hm by done.
    by simplify_eq/=.
  - intros <-. rewrite (consistent_elem_of m l x) in Hk by done. congruence.
Qed.

Lemma consistent_absent m l k :
  consistent m l → m !! k = None ↔ Forall (λ x, key x.2 ≠ k) (elems l).
Proof.
  intros Hc. rewrite Forall_forall. split.
  - intros Hk x Hx <-. rewrite (consistent_elem_of m l x) in Hk; done.
  - intros Hl. destruct (m !! k) as [e|] eqn:Hk; [|done].
    destruct (consistent_index m l k e) as [v Hv]; [done..|].
    by destruct (Hl _ Hv).
Qed.

Lemma consistent_intro m l :
  NoDup (elems l).*1 →
  (∀ x, x ∈ elems l → (x.1 < unused l)%nat) →
  (∀ k e, m !! k = Some e → ∃ v, (e, mkItem k v) ∈ elems l) →
  (∀ x, x ∈ elems l → m !! key x.2 = Some x.1) →
  consistent m l.
Proof.
  intros Hnd Hu Hm Hl. split_and!; [done | by apply Forall_forall | | by apply Forall_forall].
  intros k e Hk. simpl. destruct (Hm k e Hk) as [v Hv].
  unfold Value. by rewrite (lookup_elem_NoDup e _ (mkItem k v)).
Qed.

Lemma consistent_New : consistent (∅ : gmap K addr) (GoList.New (A := item K V)).
Proof.
  apply consistent_intro; simpl.
  - constructor.
  - by intros x ?%elem_of_nil.
  - by intros k e ?%lookup_empty_Some.
  - by intros x ?%elem_of_nil.
Qed.

(** Moving an element to the front, with or without a new value. *)
Lemma consistent_front m l k e v :
  consistent m l → m !! k = Some e →
  consistent m {| elems := (e, mkItem k v) :: drop_elem e (elems l);
                  unused := unused l |}.
Proof.
  intros Hc Hk. pose proof Hc as (Hnd & Hu & _ & _).
  destruct (consistent_index m l k e Hc Hk) as [v0 Hv0].
  apply consistent_intro; simpl.
  - apply NoDup_cons. split; [apply drop_elem_not_elem_of | by apply drop_elem_NoDup].
  - intros x [-> | [_ Hx]%elem_of_drop_elem]%elem_of_cons.
    + by eapply Forall_forall in Hu; [|exact Hv0].
    + by eapply Forall_forall in Hu.
  - intros k' e' Hk'.
    destruct (consistent_index m l k' e' Hc Hk') as [v' Hv'].
    destruct (decide (e' = e)) as [-> | Hne].
    + assert (k' = k) as -> by (by apply (consistent_addr_key m l k e _ Hc Hk Hv')).
      exists v. by left.
    + exists v'. right. by apply elem_of_drop_elem.
  - intros x [-> | [_ Hx]%elem_of_drop_elem]%elem_of_cons; [done|].
    by apply (consistent_elem_of m l).
Qed.

(** A new element for a key that is not indexed. *)
Lemma consistent_push m l k v :
  consistent m l → m !! k = None →
  consistent (<[k := unused l]> m)
    {| elems := (unused l, mkItem k v) :: elems l; unused := S (unused l) |}.
Proof.
  intros Hc Hk. pose proof Hc as (Hnd & Hu & _ & _).
  rewrite Forall_forall in Hu.
  apply consistent_intro; simpl.
  - apply NoDup_cons. split; [|done].
    intros (x & Hx1 & Hx)%list_elem_of_fmap. specialize (Hu x Hx). lia.
  - intros x [-> | Hx]%elem_of_cons; [simpl; lia|].
    specialize (Hu x Hx). lia.
  - intros k' e' [[<- <-] | [Hne Hk']]%lookup_insert_Some.
    + exists v. by left.
    + destruct (consistent_index m l k' e' Hc Hk') as [v' Hv'].
      exists v'. by right.
  - intros x [-> | Hx]%elem_of_cons; simpl.
    + by rewrite lookup_insert_eq.
    + rewrite lookup_insert_ne; [by apply (consistent_elem_of m l)|].
      intros ->. by rewrite (consistent_elem_of m l x) in Hk.
Qed.

(** Taking an element out of the list and its key out of the index. *)
Lemma consistent_remove m l e it :
  consistent m l → (e, it) ∈ elems l →
  consistent (delete (key it) m)
    {| elems := drop_elem e (elems l); unused := unused l |}.
Proof.
  intros Hc Hin. pose proof Hc as (Hnd & Hu & _ & _).
  rewrite Forall_forall in Hu.
  pose proof (consistent_elem_of m l _ Hc Hin) as Hk. simpl in Hk.
  apply consistent_intro; simpl.
  - by apply drop_elem_NoDup.
  - intros x [_ Hx]%elem_of_drop_elem. by apply Hu.
  - intros k' e' [Hne Hk']%lookup_delete_Some.
    destruct (consistent_index m l k' e' Hc Hk') as [v' Hv'].
    exists v'. apply elem_of_drop_elem. split; [|done]. simpl.
    intros ->. destruct Hne.
    symmetry. by apply (consistent_addr_key m l (key it) e _ Hc Hk Hv').
  - intros x [Hne Hx]%elem_of_drop_elem.
    rewrite lookup_delete_ne; [by apply (consistent_elem_of m l)|].
    intros Heq. destruct Hne.
    by apply (consistent_addr_key m l (key it) e x Hc Hk Hx).
Qed.

(** The keys of the list are distinct. *)
Lemma consistent_NoDup_keys m l : consistent m l → NoDup (key <$> (elems l).*2).
Proof.
  intros Hc. pose proof Hc as (Hnd & _).
  rewrite <-list_fmap_compose.
  apply (NoDup_fmap_transfer fst); [done|].
  intros x y Hx Hy Hxy. simpl in Hxy.
  pose proof (consistent_elem_of m l x Hc Hx) as Hmx.
  pose proof (consistent_elem_of m l y Hc Hy) as Hmy.
  rewrite Hxy in Hmx. congruence.
Qed.

(** The index has as many keys as the list has elements. *)
Lemma consistent_size m l : consistent m l → base.size m = length (elems l).
Proof.
  intros Hc.
  assert (NoDup ((λ x : addr * item K V, (key x.2, x.1)) <$> elems l).*1) as Hnd.
  { rewrite <-list_fmap_compose.
    pose proof (consistent_NoDup_keys m l Hc) as Hk.
    by rewrite <-list_fmap_compose in Hk. }
  assert (m = list_to_map ((λ x, (key x.2, x.1)) <$> elems l)) as ->.
  { apply map_eq. intros k. apply option_eq. intros e.
    rewrite <-elem_of_list_to_map by done.
    rewrite list_elem_of_fmap. split.
    - intros Hk. destruct (consistent_index m l k e Hc Hk) as [v Hv].
      by exists (e, mkItem k v).
    - intros (x & [= -> ->] & Hx). by apply (consistent_elem_of m l). }
  by rewrite map_size_list_to_map, length_fmap.
Qed.

(** Dropping the element of a key drops the entry of that key. *)
Lemma consistent_drop_contents m l k e :
  consistent m l → m !! k = Some e →
  (drop_elem e (elems l)).*2 = filter (λ it, key it ≠ k) (elems l).*2.
Proof.
  intros Hc Hk.
  assert (Forall (λ x, x.1 = e ↔ key x.2 = k) (elems l)) as Hall.
  { apply Forall_forall. intros x Hx. by apply (consistent_addr_key m l). }
  induction Hall as [|x es Hx Hall IH]; [done|].
  unfold drop_elem. rewrite fmap_cons, !filter_cons.
  destruct (decide (x.1 ≠ e)) as [Hne | Heq].
  - rewrite decide_True by (by rewrite <-Hx). rewrite fmap_cons. f_equal. apply IH.
  - rewrite decide_False; [apply IH|]. intros Hne. apply Heq. by rewrite Hx.
Qed.
End consistent_facts.

Section sound.
Context {K V U : Type} `{Countable K} `{Zero K} `{Zero V}.
Import LRU.
Implicit Types (lru : t K V U) (d : data K V U) (k : K) (v : V).

Lemma extends_refl d : wf d → extends d d.
Proof. intros Hwf. split; [done|]. exists []. by rewrite app_nil_r. Qed.

Lemma extends_trans d1 d2 d3 : extends d1 d2 → extends d2 d3 → extends d1 d3.
Proof.
  intros (_ & new1 & Ht1 & Hn1) (Hwf & new2 & Ht2 & Hn2). split; [done|].
  exists (new1 ++ new2). rewrite Ht2, Ht1, app_assoc. split; [done|].
  by apply Forall_app.
Qed.

Lemma extends_same_trace d1 d2 d' :
  trace d1 = trace d2 → extends d1 d' → extends d2 d'.
Proof. intros Ht (Hwf & new & Hn). split; [done|]. exists new. by rewrite <-Ht. Qed.

Lemma notify_sound lru k v d d' :
  wf d → respectful lru → elem d !! k = None →
  notify lru k v d = Ok d' → extends d d'.
Proof.
  intros Hwf Hcb Hk. unfold notify.
  destruct (evicted lru) as [cb|] eqn:Hev.
  - intros Hrun. apply (Hcb cb Hev) in Hrun as (Hwf' & new & Ht & Hnew); [|done].
    split; [done|]. simpl in Ht. rewrite <-app_assoc in Ht.
    eexists. split; [exact Ht|]. apply Forall_cons. split; [|done].
    split; [done|]. simpl. by apply (consistent_absent (elem d)).
  - intros [= <-]. by apply extends_refl.
Qed.

Lemma RemoveOldest_sound lru r lru' :
  wf (state lru) → respectful lru →
  RemoveOldest lru = Ok (r, lru') →
  extends (state lru) (state lru') ∧ evicted lru' = evicted lru.
Proof.
  intros Hwf Hcb. unfold RemoveOldest.
  destruct (GoList.Back (items (state lru))) as [[e it]|] eqn:Hback.
  - destruct (notify _ _ _ _) as [d'|] eqn:Hn; [|done]. simpl.
    intros [= _ <-]. split; [|done]. simpl.
    apply notify_sound in Hn; [by eapply extends_same_trace; [|exact Hn] | | done |].
    + apply consistent_remove; [done|]. by apply last_Some_elem_of.
    + simpl. apply lookup_delete_eq.
  - intros [= _ <-]. split; [by apply extends_refl | done].
Qed.

Lemma Remove_sound lru k r lru' :
  wf (state lru) → respectful lru →
  Remove lru k = Ok (r, lru') →
  extends (state lru) (state lru') ∧ evicted lru' = evicted lru.
Proof.
  intros Hwf Hcb. unfold Remove.
  destruct (elem (state lru) !! k) as [e|] eqn:Hk.
  - destruct (GoList.Value e (items (state lru))) as [it|] eqn:Hit; [|done].
    destruct (notify _ _ _ _) as [d'|] eqn:Hn; [|done]. simpl.
    intros [= _ <-]. split; [|done]. simpl.
    apply notify_sound in Hn; [by eapply extends_same_trace; [|exact Hn] | | done |].
    + apply consistent_remove; [done|]. by apply lookup_elem_elem_of.
    + simpl. apply lookup_delete_eq.
  - intros [= _ <-]. split; [by apply extends_refl | done].
Qed.

(** The key the index has for an element is the key the element holds. *)
Lemma wf_Value_key d k e it :
  wf d → elem d !! k = Some e → GoList.Value e (items d) = Some it →
  it = mkItem k (value it).
Proof.
  intros (_ & _ & Hm & _) Hk Hit. specialize (Hm k e Hk). simpl in Hm.
  rewrite Hit in Hm. destruct it. by simplify_eq/=.
Qed.

Lemma Set_sound lru k v lru' :
  wf (state lru) → respectful lru →
  Set_ lru k v = Ok lru' →
  extends (state lru) (state lru') ∧ evicted lru' = evicted lru.
Proof.
  intros Hwf Hcb. unfold Set_.
  destruct (elem (state lru) !! k) as [e|] eqn:Hk.
  - rewrite Value_MoveToFront.
    destruct (GoList.Value e (items (state lru))) as [it|] eqn:Hit; [|done].
    intros [= <-]. split; [|done]. simpl.
    rewrite (Store_MoveToFront _ _ it) by done.
    rewrite (wf_Value_key _ k e it) by done. simpl.
    split; [by apply consistent_front|]. exists []. by rewrite app_nil_r.
  - simpl. set (lru1 := with_state lru _).
    assert (wf (state lru1)) as Hwf1 by (by apply consistent_push).
    case_bool_decide.
    + destruct (RemoveOldest lru1) as [[r lru2]|] eqn:Hr; [|done]. simpl.
      intros [= <-].
      apply RemoveOldest_sound in Hr as [Hext Hev]; [|done..].
      split; [|done]. by eapply extends_same_trace; [|exact Hext].
    + intros [= <-]. split; [|done].
      split; [done|]. exists []. by rewrite app_nil_r.
Qed.

Lemma Get_sound lru k r lru' :
  wf (state lru) → respectful lru →
  Get lru k = Ok (r, lru') →
  extends (state lru) (state lru') ∧ evicted lru' = evicted lru.
Proof.
  intros Hwf Hcb. unfold Get.
  destruct (elem (state lru) !! k) as [e|] eqn:Hk.
  - rewrite Value_MoveToFront.
    destruct (GoList.Value e (items (state lru))) as [it|] eqn:Hit; [|done].
    intros [= _ <-]. split; [|done]. simpl.
    split; [|exists []; by rewrite app_nil_r].
    unfold wf. simpl. unfold GoList.MoveToFront. rewrite Hit.
    rewrite (wf_Value_key _ k e it) by done.
    by apply consistent_front.
  - intros [= _ <-]. split; [by apply extends_refl | done].
Qed.

Lemma Pick_sound lru k r lru' :
  wf (state lru) →
  Pick lru k = Ok (r, lru') →
  extends (state lru) (state lru') ∧ evicted lru' = evicted lru.
Proof.
  intros Hwf. unfold Pick.
  destruct (elem (state lru) !! k) as [e|].
  - destruct (GoList.Value e (items (state lru))) as [it|]; [|done].
    intros [= _ <-]. split; [by apply extends_refl | done].
  - intros [= _ <-]. split; [by apply extends_refl | done].
Qed.

Lemma Resize_loop_sound fuel n count lru r lru' :
  wf (state lru) → respectful lru →
  Resize_loop fuel n count lru = Ok (r, lru') →
  extends (state lru) (state lru') ∧ evicted lru' = evicted lru.
Proof.
  revert count lru. induction fuel as [|fuel IH]; intros count lru Hwf Hcb; simpl.
  - case_bool_decide; [done|]. intros [= _ <-].
    split; [by apply extends_refl | done].
  - case_bool_decide; [|intros [= _ <-]; split; [by apply extends_refl | done]].
    destruct (RemoveOldest lru) as [[r1 lru1]|] eqn:Hr; [|done]. simpl.
    apply RemoveOldest_sound in Hr as [Hext Hev]; [|done..].
    intros Hloop. apply IH in Hloop as [Hext' Hev'].
    + split; [by eapply extends_trans | congruence].
    + by destruct Hext.
    + unfold respectful. by rewrite Hev.
Qed.

Lemma Resize_sound fuel lru n r lru' :
  wf (state lru) → respectful lru →
  Resize fuel lru n = Ok (r, lru') →
  extends (state lru) (state lru') ∧ evicted lru' = evicted lru.
Proof.
  intros Hwf Hcb Hrun. apply Resize_loop_sound in Hrun as [Hext Hev]; [|done..].
  split; [|done]. by eapply extends_same_trace; [|exact Hext].
Qed.

Lemma Clear_sound fuel lru lru' :
  wf (state lru) → respectful lru →
  Clear fuel lru = Ok lru' →
  extends (state lru) (state lru') ∧ evicted lru' = evicted lru.
Proof.
  revert lru. induction fuel as [|fuel IH]; intros lru Hwf Hcb; simpl.
  - case_bool_decide; [done|]. intros [= <-].
    split; [by apply extends_refl | done].
  - case_bool_decide; [|intros [= <-]; split; [by apply extends_refl | done]].
    destruct (RemoveOldest lru) as [[r1 lru1]|] eqn:Hr; [|done]. simpl.
    apply RemoveOldest_sound in Hr as [Hext Hev]; [|done..].
    intros Hloop. apply IH in Hloop as [Hext' Hev'].
    + split; [by eapply extends_trans | congruence].
    + by destruct Hext.
    + unfold respectful. by rewrite Hev.
Qed.

Lemma exec_sound fuel o lru lru' :
  wf (state lru) → respectful lru →
  exec fuel o lru = Ok lru' →
  extends (state lru) (state lru') ∧ evicted lru' = evicted lru.
Proof.
  intros Hwf Hcb. destruct o as [k v|k|k|k| |n|]; simpl.
  - by apply Set_sound.
  - destruct (Get lru k) as [[r lru1]|] eqn:Hr; [|done]. simpl.
    intros [= <-]. by eapply Get_sound.
  - destruct (Pick lru k) as [[r lru1]|] eqn:Hr; [|done]. simpl.
    intros [= <-]. by eapply Pick_sound.
  - destruct (Remove lru k) as [[r lru1]|] eqn:Hr; [|done]. simpl.
    intros [= <-]. by eapply Remove_sound.
  - destruct (RemoveOldest lru) as [[r lru1]|] eqn:Hr; [|done]. simpl.
    intros [= <-]. by eapply RemoveOldest_sound.
  - destruct (Resize fuel lru n) as [[r lru1]|] eqn:Hr; [|done]. simpl.
    intros [= <-]. by eapply Resize_sound.
  - by apply Clear_sound.
Qed.

(** Every reachable cache is well formed, its callback respects it, and
    all the calls of the callback so far were calls for detached entries. *)
Lemma reachable_sound lru :
  reachable lru →
  wf (state lru) ∧ respectful lru ∧ Forall detached (trace (state lru)).
Proof.
  induction 1 as [n u | lru cb _ (Hwf & Hcb & Htr) Hres
                 | lru fuel o lru' _ (Hwf & Hcb & Htr) Hrun].
  - split_and!; [apply consistent_New | by intros cb [=] | constructor].
  - split_and!; [done | intros c Hc; by apply Hres | done].
  - apply exec_sound in Hrun as [(Hwf' & new & Ht & Hnew) Hev]; [|done..].
    split_and!; [done | unfold respectful; by rewrite Hev |].
    rewrite Ht. by apply Forall_app.
Qed.
End sound.

Section behaviour.
Context {K V U : Type} `{Countable K} `{Zero K} `{Zero V}.
Import LRU.
Implicit Types (lru : t K V U) (d : data K V U) (k : K) (v : V).

Lemma with_state_id lru : with_state lru (state lru) = lru.
Proof. by destruct lru. Qed.

Lemma Len_contents lru : Len lru = Z.of_nat (length (contents lru)).
Proof. unfold Len, GoList.Len, contents. by rewrite length_fmap. Qed.

(** *** Traversals *)

Lemma All_loop_collect d es1 es2 fuel acc :
  GoList.elems (items d) = es1 ++ es2 → NoDup (es1 ++ es2).*1 →
  (length es2 ≤ fuel)%nat →
  All_loop fuel collect (fst <$> head es2) acc d = Ok (acc ++ pairs es2.*2, d).
Proof.
  revert es1 fuel acc.
  induction es2 as [|[e it] es2 IH]; intros es1 fuel acc Hes Hnd Hfuel; simpl.
  - destruct fuel; simpl; by rewrite app_nil_r.
  - destruct fuel as [|fuel]; simpl in *; [lia|].
    assert (e ∉ es1.*1) as Hnotin.
    { rewrite fmap_app, fmap_cons in Hnd. apply NoDup_app in Hnd as (_ & Hd & _).
      intros Hin. by apply (Hd e Hin); left. }
    unfold GoList.Next, GoList.Value. rewrite Hes.
    rewrite next_elem_split, lookup_elem_split by done. simpl.
    rewrite (IH (es1 ++ [(e, it)])).
    + by rewrite <-app_assoc.
    + by rewrite <-app_assoc.
    + by rewrite <-app_assoc.
    + lia.
Qed.

(** A full traversal by [All] yields the entries, most recently used
    first, and leaves the cache as it was. *)
Lemma All_collect lru fuel :
  wf (state lru) → (length (contents lru) ≤ fuel)%nat →
  All fuel lru collect [] = Ok (pairs (contents lru), lru).
Proof.
  intros (Hnd & _) Hfuel. unfold All, GoList.Front.
  rewrite (All_loop_collect (state lru) [] (GoList.elems (items (state lru)))); simpl.
  - by rewrite with_state_id.
  - done.
  - done.
  - unfold contents in Hfuel. by rewrite length_fmap in Hfuel.
Qed.

Lemma Backward_loop_collect d es1 es2 fuel acc :
  reverse (GoList.elems (items d)) = es1 ++ es2 → NoDup (es1 ++ es2).*1 →
  (length es2 ≤ fuel)%nat →
  Backward_loop fuel collect (fst <$> head es2) acc d
  = Ok (acc ++ pairs es2.*2, d).
Proof.
  revert es1 fuel acc.
  induction es2 as [|[e it] es2 IH]; intros es1 fuel acc Hes Hnd Hfuel; simpl.
  - destruct fuel; simpl; by rewrite app_nil_r.
  - destruct fuel as [|fuel]; simpl in *; [lia|].
    assert (e ∉ es1.*1) as Hnotin.
    { rewrite fmap_app, fmap_cons in Hnd. apply NoDup_app in Hnd as (_ & Hd & _).
      intros Hin. by apply (Hd e Hin); left. }
    assert (GoList.Value e (items d) = Some it) as ->.
    { apply lookup_elem_NoDup.
      - by rewrite <-Hes, fmap_reverse, reverse_Permutation in Hnd.
      - apply elem_of_reverse. rewrite Hes. apply elem_of_app. right. by left. }
    unfold GoList.Prev. rewrite Hes, next_elem_split by done. simpl.
    rewrite (IH (es1 ++ [(e, it)])).
    + by rewrite <-app_assoc.
    + by rewrite <-app_assoc.
    + by rewrite <-app_assoc.
    + lia.
Qed.

(** A full traversal by [Backward] yields the entries, least recently
    used first. *)
Lemma Backward_collect lru fuel :
  wf (state lru) → (length (contents lru) ≤ fuel)%nat →
  Backward fuel lru collect [] = Ok (pairs (reverse (contents lru)), lru).
Proof.
  intros (Hnd & _) Hfuel. unfold Backward, GoList.Back.
  rewrite <-head_reverse.
  rewrite (Backward_loop_collect (state lru) []
             (reverse (GoList.elems (items (state lru))))); simpl.
  - unfold contents. by rewrite with_state_id, fmap_reverse.
  - done.
  - by rewrite fmap_reverse, reverse_Permutation.
  - unfold contents in Hfuel. by rewrite length_reverse, <-(length_fmap snd).
Qed.
(** *** Lookups *)

Lemma Pick_present lru k e :
  wf (state lru) → elem (state lru) !! k = Some e →
  ∃ v0, (e, mkItem k v0) ∈ GoList.elems (items (state lru))
    ∧ Pick lru k = Ok (v0, true, lru).
Proof.
  intros Hwf Hk. destruct (consistent_index _ _ k e Hwf Hk) as [v0 Hv0].
  exists v0. split; [done|]. unfold Pick. rewrite Hk.
  by rewrite (consistent_Value _ _ e (mkItem k v0) Hwf Hv0).
Qed.

Lemma Pick_absent lru k :
  elem (state lru) !! k = None → Pick lru k = Ok (zero, false, lru).
Proof. intros Hk. unfold Pick. by rewrite Hk. Qed.

Lemma Get_absent lru k :
  elem (state lru) !! k = None → Get lru k = Ok (zero, false, lru).
Proof. intros Hk. unfold Get. by rewrite Hk. Qed.

Lemma Remove_absent lru k :
  elem (state lru) !! k = None → Remove lru k = Ok (zero, false, lru).
Proof. intros Hk. unfold Remove. by rewrite Hk. Qed.

Lemma Get_present lru k e :
  wf (state lru) → elem (state lru) !! k = Some e →
  ∃ v0 lru', (e, mkItem k v0) ∈ GoList.elems (items (state lru))
    ∧ Get lru k = Ok (v0, true, lru')
    ∧ contents lru' = mkItem k v0 :: filter (λ it, key it ≠ k) (contents lru)
    ∧ wf (state lru')
    ∧ elem (state lru') = elem (state lru)
    ∧ size (state lru') = size (state lru)
    ∧ trace (state lru') = trace (state lru)
    ∧ user (state lru') = user (state lru)
    ∧ evicted lru' = evicted lru.
Proof.
  intros Hwf Hk. destruct (consistent_index _ _ k e Hwf Hk) as [v0 Hv0].
  pose proof (consistent_Value _ _ e _ Hwf Hv0) as Hit.
  exists v0. eexists. split; [done|]. unfold Get.
  rewrite Hk, Value_MoveToFront, Hit. split; [done|]. simpl.
  unfold contents, GoList.MoveToFront. simpl. rewrite Hit. simpl.
  split_and!; try done.
  - f_equal. exact (consistent_drop_contents _ _ k e Hwf Hk).
  - by apply consistent_front.
Qed.

(** *** [Set] on a key of the cache *)

Lemma Set_present lru k v e :
  wf (state lru) → elem (state lru) !! k = Some e →
  ∃ lru', Set_ lru k v = Ok lru'
    ∧ contents lru' = mkItem k v :: filter (λ it, key it ≠ k) (contents lru)
    ∧ wf (state lru')
    ∧ elem (state lru') = elem (state lru)
    ∧ size (state lru') = size (state lru)
    ∧ trace (state lru') = trace (state lru)
    ∧ user (state lru') = user (state lru)
    ∧ evicted lru' = evicted lru.
Proof.
  intros Hwf Hk. destruct (consistent_index _ _ k e Hwf Hk) as [v0 Hv0].
  pose proof (consistent_Value _ _ e _ Hwf Hv0) as Hit.
  eexists. unfold Set_. rewrite Hk, Value_MoveToFront, Hit.
  split; [done|]. simpl. rewrite (Store_MoveToFront _ _ _ _ Hit).
  unfold contents. simpl. split_and!; try done.
  - f_equal. exact (consistent_drop_contents _ _ k e Hwf Hk).
  - by apply consistent_front.
Qed.

(** *** Removing the oldest entry *)

Lemma notify_quiet lru k v d :
  undisturbed lru →
  ∃ u, notify lru k v d
       = Ok {| elem := elem d; items := items d; size := size d;
               trace := trace d ++ match evicted lru with
                                   | Some _ => [Evicted k v (elem d) (items d)]
                                   | None => []
                                   end;
               user := u |}.
Proof.
  intros Hq. unfold notify. destruct (evicted lru) as [cb|] eqn:Hev.
  - destruct (Hq cb Hev k v
                {| elem := elem d; items := items d; size := size d;
                   trace := trace d ++ [Evicted k v (elem d) (items d)];
                   user := user d |}) as [u ->].
    by exists u.
  - exists (user d). rewrite app_nil_r. by destruct d.
Qed.

Lemma RemoveOldest_empty lru :
  GoList.elems (items (state lru)) = [] →
  RemoveOldest lru = Ok (zero, zero, false, lru).
Proof. intros Hes. unfold RemoveOldest, GoList.Back. by rewrite Hes. Qed.

Lemma RemoveOldest_quiet lru es e it :
  wf (state lru) → undisturbed lru →
  GoList.elems (items (state lru)) = es ++ [(e, it)] →
  ∃ lru', RemoveOldest lru = Ok (key it, value it, true, lru')
    ∧ GoList.elems (items (state lru')) = es
    ∧ wf (state lru')
    ∧ size (state lru') = size (state lru)
    ∧ evicted lru' = evicted lru
    ∧ calls (state lru')
      = calls (state lru) ++ match evicted lru with
                             | Some _ => [(key it, value it)]
                             | None => []
                             end.
Proof.
  intros Hwf Hq Hes. unfold RemoveOldest, GoList.Back.
  rewrite Hes, last_snoc.
  match goal with |- context [notify lru ?k ?v ?d] =>
    destruct (notify_quiet lru k v d Hq) as [u ->] end.
  eexists. split; [done|]. simpl. split_and!; try done.
  - rewrite Hes. pose proof (drop_elem_split e it es []) as Hd.
    rewrite app_nil_r in Hd. apply Hd. destruct Hwf as (Hnd & _).
    by rewrite Hes in Hnd.
  - apply consistent_remove; [done|]. rewrite Hes.
    apply elem_of_app. right. by left.
  - unfold calls. simpl. rewrite fmap_app. by destruct (evicted lru).
Qed.

(** *** [Set] on a new key *)

Lemma Set_absent lru k v :
  wf (state lru) → undisturbed lru → elem (state lru) !! k = None →
  ∃ lru', Set_ lru k v = Ok lru'
    ∧ contents lru'
      = mkItem k v :: (if bool_decide (0 < size (state lru) ≤ Len lru)
                       then removelast (contents lru) else contents lru)
    ∧ Len lru' = (if bool_decide (0 < size (state lru) ≤ Len lru)
                  then Len lru else Len lru + 1)
    ∧ wf (state lru')
    ∧ size (state lru') = size (state lru)
    ∧ evicted lru' = evicted lru.
Proof.
  intros Hwf Hq Hk. unfold Set_. rewrite Hk. simpl.
  set (lru1 := with_state lru _).
  assert (wf (state lru1)) as Hwf1 by (by apply consistent_push).
  unfold GoList.Len. simpl.
  destruct (decide (0 < size (state lru) ≤ Len lru)) as [Hover | Hfit].
  - rewrite bool_decide_true by (unfold Len, GoList.Len in Hover; lia).
    rewrite (bool_decide_true _ Hover).
    assert (∃ es0 e it, GoList.elems (items (state lru)) = es0 ++ [(e, it)])
      as (es0 & e & it & Hes0).
    { destruct (last (GoList.elems (items (state lru)))) as [[e it]|] eqn:Hlast.
      - apply last_Some in Hlast as [es0 ->]. by exists es0, e, it.
      - apply last_None in Hlast. unfold Len, GoList.Len in Hover.
        rewrite Hlast in Hover. simpl in Hover. lia. }
    destruct (RemoveOldest_quiet lru1
                ((GoList.unused (items (state lru)), mkItem k v) :: es0) e it)
      as (lru2 & -> & Hes2 & Hwf2 & Hsz & Hev & _); [done | done | |].
    { unfold lru1. simpl. by rewrite Hes0. }
    exists lru2. simpl. split_and!; try done.
    + unfold contents. rewrite Hes2, Hes0, !fmap_cons, fmap_app. simpl.
      by rewrite removelast_last.
    + unfold Len, GoList.Len. rewrite Hes2, Hes0, length_app. simpl. lia.
  - rewrite bool_decide_false by (unfold Len, GoList.Len in Hfit; lia).
    rewrite (bool_decide_false _ Hfit). exists lru1. split_and!; try done.
    unfold Len, GoList.Len. simpl. lia.
Qed.
(** *** The loops *)

Lemma Clear_quiet lru fuel :
  wf (state lru) → undisturbed lru → (length (contents lru) ≤ fuel)%nat →
  ∃ lru', Clear fuel lru = Ok lru'
    ∧ contents lru' = []
    ∧ wf (state lru')
    ∧ size (state lru') = size (state lru)
    ∧ evicted lru' = evicted lru
    ∧ calls (state lru')
      = calls (state lru) ++ match evicted lru with
                             | Some _ => pairs (reverse (contents lru))
                             | None => []
                             end.
Proof.
  revert lru. induction fuel as [|fuel IH]; intros lru Hwf Hq Hfuel.
  - exists lru.
    assert (contents lru = []) as Hc
      by (destruct (contents lru); [done | simpl in Hfuel; lia]).
    assert (Len lru = 0) as HL by (by rewrite Len_contents, Hc).
    cbn [Clear]. rewrite bool_decide_false by lia. rewrite Hc.
    split_and!; try done. destruct (evicted lru); by rewrite app_nil_r.
  - simpl. destruct (last (GoList.elems (items (state lru)))) as [[e it]|] eqn:Hlast.
    + apply last_Some in Hlast as [es Hes].
      rewrite bool_decide_true
        by (unfold Len, GoList.Len; rewrite Hes, length_app; simpl; lia).
      destruct (RemoveOldest_quiet lru es e it Hwf Hq Hes)
        as (lru1 & -> & Hes1 & Hwf1 & Hsz1 & Hev1 & Hcalls1).
      simpl. destruct (IH lru1) as (lru' & -> & Hc' & Hwf' & Hsz' & Hev' & Hcalls');
        [done | unfold undisturbed; by rewrite Hev1 | |].
      { unfold contents in *. rewrite Hes1. rewrite Hes, fmap_app, length_app in Hfuel.
        simpl in Hfuel. lia. }
      exists lru'. split_and!; try congruence.
      rewrite Hcalls', Hcalls1, Hev1. unfold contents. rewrite Hes1, Hes.
      destruct (evicted lru); [|by rewrite !app_nil_r].
      rewrite fmap_app, reverse_app. simpl. by rewrite <-app_assoc.
    + apply last_None in Hlast. exists lru.
      unfold Len, GoList.Len, contents. rewrite Hlast. simpl.
      split_and!; try done. destruct (evicted lru); by rewrite app_nil_r.
Qed.

(** With a negative argument the loop of [Resize] never ends. *)
Lemma Resize_loop_negative fuel n count lru :
  wf (state lru) → undisturbed lru → n < 0 →
  Resize_loop fuel n count lru = Fail OutOfFuel.
Proof.
  intros Hwf Hq Hn. revert count lru Hwf Hq.
  induction fuel as [|fuel IH]; intros count lru Hwf Hq; simpl;
    (rewrite bool_decide_true by (unfold Len, GoList.Len; lia)); [done|].
  destruct (last (GoList.elems (items (state lru)))) as [[e it]|] eqn:Hlast.
  - apply last_Some in Hlast as [es Hes].
    destruct (RemoveOldest_quiet lru es e it Hwf Hq Hes)
      as (lru1 & -> & _ & Hwf1 & _ & Hev1 & _).
    simpl. apply IH; [done|]. unfold undisturbed. by rewrite Hev1.
  - apply last_None in Hlast. rewrite RemoveOldest_empty by done. simpl.
    by apply IH.
Qed.

Lemma quiet_respects (cb : callback K V U) : quiet cb → respects cb.
Proof.
  intros Hq k v d d' Hwf Hrun. destruct (Hq k v d) as [u Hu].
  rewrite Hu in Hrun. injection Hrun as <-. split; [done|].
  exists []. by rewrite app_nil_r.
Qed.

Lemma run_sets_snoc lru kvs k v :
  run_sets lru (kvs ++ [(k, v)]) = (lru' ← run_sets lru kvs; Set_ lru' k v).
Proof. unfold run_sets. by rewrite foldl_snoc. Qed.

(** [Set] calls on a cache made with a positive capacity keep it within
    that capacity. *)
Lemma run_sets_New (N : Z) (u : U) kvs :
  0 < N →
  ∃ lru, run_sets (New N u) kvs = Ok lru
    ∧ wf (state lru) ∧ evicted lru = None ∧ size (state lru) = N ∧ Len lru ≤ N.
Proof.
  intros HN. induction kvs as [|[k v] kvs IH] using rev_ind.
  - exists (New N u). split_and!; try done; [apply consistent_New|].
    unfold Len, GoList.Len. simpl. lia.
  - destruct IH as (lru & Hrun & Hwf & Hev & Hsz & Hlen).
    rewrite run_sets_snoc, Hrun. simpl.
    destruct (elem (state lru) !! k) as [e|] eqn:Hk.
    + destruct (Set_present lru k v e Hwf Hk)
        as (lru' & -> & _ & Hwf' & Hel & Hsz' & _ & _ & Hev').
      exists lru'. split_and!; try congruence.
      unfold Len, GoList.Len in *.
      rewrite <-(consistent_size _ _ Hwf'), Hel, (consistent_size _ _ Hwf). done.
    + destruct (Set_absent lru k v Hwf) as (lru' & -> & _ & Hlen' & Hwf' & Hsz' & Hev');
        [by intros cb; rewrite Hev | done |].
      exists lru'. split_and!; try congruence.
      rewrite Hlen'. case_bool_decide; lia.
Qed.
End behaviour.

(** * More about the methods of the cache *)

Section more_behaviour.
Context {K V U : Type} `{Countable K} `{Zero K} `{Zero V}.
Import LRU.
Implicit Types (lru : t K V U) (d : data K V U) (k : K) (v : V).

Lemma contents_last lru it :
  last (contents lru) = Some it →
  ∃ es e, GoList.elems (items (state lru)) = es ++ [(e, it)].
Proof.
  unfold contents. rewrite fmap_last.
  destruct (last (GoList.elems (items (state lru)))) as [[e it']|] eqn:Hl;
    [|done].
  simpl. intros [= <-]. apply last_Some in Hl as [es ->]. by exists es, e.
Qed.

Lemma Remove_quiet lru k e :
  wf (state lru) → undisturbed lru → elem (state lru) !! k = Some e →
  ∃ v lru', (e, mkItem k v) ∈ GoList.elems (items (state lru))
    ∧ Remove lru k = Ok (v, true, lru')
    ∧ GoList.elems (items (state lru'))
      = GoList.drop_elem e (GoList.elems (items (state lru)))
    ∧ elem (state lru') = delete k (elem (state lru))
    ∧ wf (state lru')
    ∧ size (state lru') = size (state lru)
    ∧ evicted lru' = evicted lru
    ∧ calls (state lru')
      = calls (state lru) ++ match evicted lru with
                             | Some _ => [(k, v)]
                             | None => []
                             end.
Proof.
  intros Hwf Hq Hk. destruct (consistent_index _ _ k e Hwf Hk) as [v0 Hv0].
  pose proof (consistent_Value _ _ e _ Hwf Hv0) as Hit.
  exists v0. unfold Remove. rewrite Hk, Hit. simpl.
  match goal with |- context [notify lru ?k' ?v' ?d'] =>
    destruct (notify_quiet lru k' v' d' Hq) as [u ->] end.
  eexists. split; [done|]. split; [done|]. simpl. split_and!; try done.
  - by apply (consistent_remove _ _ e (mkItem k v0)).
  - unfold calls. simpl. rewrite fmap_app. by destruct (evicted lru).
Qed.

Lemma Resize_loop_quiet fuel n count lru :
  wf (state lru) → undisturbed lru → 0 ≤ n →
  (length (contents lru) - Z.to_nat n ≤ fuel)%nat →
  ∃ lru', Resize_loop fuel n count lru
          = Ok (count + Z.max 0 (Len lru - n), lru')
    ∧ contents lru' = take (Z.to_nat n) (contents lru)
    ∧ wf (state lru')
    ∧ size (state lru') = size (state lru)
    ∧ evicted lru' = evicted lru
    ∧ calls (state lru')
      = calls (state lru) ++ match evicted lru with
                             | Some _ =>
                                 pairs (reverse (drop (Z.to_nat n) (contents lru)))
                             | None => []
                             end.
Proof.
  intros Hwf Hq Hn. revert count lru Hwf Hq.
  induction fuel as [|fuel IH]; intros count lru Hwf Hq Hfuel.
  - exists lru. cbn [Resize_loop]. rewrite Len_contents.
    rewrite bool_decide_false by lia.
    rewrite take_ge, drop_ge by lia. split_and!; try done.
    + do 2 f_equal. lia.
    + destruct (evicted lru); by rewrite app_nil_r.
  - cbn [Resize_loop]. case_bool_decide as Hlen.
    + destruct (last (GoList.elems (items (state lru)))) as [[e it]|] eqn:Hlast.
      2:{ apply last_None in Hlast. unfold Len, GoList.Len in Hlen.
          rewrite Hlast in Hlen. simpl in Hlen. lia. }
      apply last_Some in Hlast as [es Hes].
      destruct (RemoveOldest_quiet lru es e it Hwf Hq Hes)
        as (lru1 & -> & Hes1 & Hwf1 & Hsz1 & Hev1 & Hcalls1).
      simpl.
      assert (contents lru = contents lru1 ++ [it]) as Hc.
      { unfold contents. by rewrite Hes, Hes1, fmap_app. }
      assert (Len lru = Len lru1 + 1) as HL.
      { rewrite !Len_contents, Hc, length_app. simpl. lia. }
      destruct (IH (count + 1) lru1) as (lru' & -> & Hc' & Hwf' & Hsz' & Hev' & Hcalls');
        [done | unfold undisturbed; by rewrite Hev1 | |].
      { rewrite Hc, length_app in Hfuel. simpl in Hfuel. lia. }
      assert (Z.to_nat n ≤ length (contents lru1))%nat as Hle.
      { rewrite Len_contents, Hc, length_app in Hlen. simpl in Hlen. lia. }
      exists lru'. split_and!; try congruence.
      * do 2 f_equal. lia.
      * by rewrite Hc', Hc, take_app_le.
      * rewrite Hcalls', Hcalls1, Hev1. destruct (evicted lru); [|by rewrite !app_nil_r].
        rewrite Hc, drop_app_le, reverse_snoc by done. simpl.
        by rewrite <-app_assoc.
    + exists lru. rewrite Len_contents in Hlen.
      rewrite take_ge, drop_ge by lia. split_and!; try done.
      * do 2 f_equal. rewrite Len_contents. lia.
      * destruct (evicted lru); by rewrite app_nil_r.
Qed.

(** A consumer that answers as [f] does on the state [d], and leaves [d]
    as it is, is given the entries in order until it answers [false]. *)
Lemma All_loop_visit {A} (f : K → V → A → bool * A) (yield : consumer K V U A)
    d es1 es2 fuel acc :
  (∀ k v a, yield k v a d = let '(more, a') := f k v a in Ok (more, a', d)) →
  GoList.elems (items d) = es1 ++ es2 → NoDup (es1 ++ es2).*1 →
  (length es2 ≤ fuel)%nat →
  All_loop fuel yield (fst <$> head es2) acc d
  = Ok (visit f acc (pairs es2.*2), d).
Proof.
  intros Hy. revert es1 fuel acc.
  induction es2 as [|[e it] es2 IH]; intros es1 fuel acc Hes Hnd Hfuel; simpl.
  - by destruct fuel.
  - destruct fuel as [|fuel]; simpl in *; [lia|].
    assert (e ∉ es1.*1) as Hnotin.
    { rewrite fmap_app, fmap_cons in Hnd. apply NoDup_app in Hnd as (_ & Hd & _).
      intros Hin. by apply (Hd e Hin); left. }
    unfold GoList.Next, GoList.Value. rewrite Hes.
    rewrite next_elem_split, lookup_elem_split by done. simpl.
    rewrite Hy. destruct (f (key it) (value it) acc) as [[] acc']; simpl; [|done].
    rewrite (IH (es1 ++ [(e, it)])); [done | by rewrite <-app_assoc.. | lia].
Qed.

Lemma Backward_loop_visit {A} (f : K → V → A → bool * A) (yield : consumer K V U A)
    d es1 es2 fuel acc :
  (∀ k v a, yield k v a d = let '(more, a') := f k v a in Ok (more, a', d)) →
  reverse (GoList.elems (items d)) = es1 ++ es2 → NoDup (es1 ++ es2).*1 →
  (length es2 ≤ fuel)%nat →
  Backward_loop fuel yield (fst <$> head es2) acc d
  = Ok (visit f acc (pairs es2.*2), d).
Proof.
  intros Hy. revert es1 fuel acc.
  induction es2 as [|[e it] es2 IH]; intros es1 fuel acc Hes Hnd Hfuel; simpl.
  - by destruct fuel.
  - destruct fuel as [|fuel]; simpl in *; [lia|].
    assert (e ∉ es1.*1) as Hnotin.
    { rewrite fmap_app, fmap_cons in Hnd. apply NoDup_app in Hnd as (_ & Hd & _).
      intros Hin. by apply (Hd e Hin); left. }
    assert (GoList.Value e (items d) = Some it) as ->.
    { apply lookup_elem_NoDup.
      - by rewrite <-Hes, fmap_reverse, reverse_Permutation in Hnd.
      - apply elem_of_reverse. rewrite Hes. apply elem_of_app. right. by left. }
    unfold GoList.Prev. rewrite Hes, next_elem_split by done. simpl.
    rewrite Hy. destruct (f (key it) (value it) acc) as [[] acc']; simpl; [|done].
    rewrite (IH (es1 ++ [(e, it)])); [done | by rewrite <-app_assoc.. | lia].
Qed.

(** Without a callback, a method of the cache neither reads nor writes
    the state of the surrounding program. *)
Lemma RemoveOldest_with_user lru u :
  evicted lru = None →
  RemoveOldest (with_user lru u)
  = (r ← RemoveOldest lru; Ok (r.1, with_user r.2 u)).
Proof.
  intros Hev. unfold RemoveOldest, notify. simpl. rewrite Hev.
  by destruct (GoList.Back (items (state lru))) as [[e it]|].
Qed.

Lemma Remove_with_user lru u k :
  evicted lru = None →
  Remove (with_user lru u) k = (r ← Remove lru k; Ok (r.1, with_user r.2 u)).
Proof.
  intros Hev. unfold Remove, notify. simpl. rewrite Hev.
  destruct (elem (state lru) !! k) as [e|]; [|done].
  by destruct (GoList.Value e (items (state lru))).
Qed.

Lemma Get_with_user lru u k :
  Get (with_user lru u) k = (r ← Get lru k; Ok (r.1, with_user r.2 u)).
Proof.
  unfold Get. simpl. destruct (elem (state lru) !! k) as [e|]; [|done].
  by destruct (GoList.Value e _).
Qed.

Lemma Pick_with_user lru u k :
  Pick (with_user lru u) k = (r ← Pick lru k; Ok (r.1, with_user r.2 u)).
Proof.
  unfold Pick. simpl. destruct (elem (state lru) !! k) as [e|]; [|done].
  by destruct (GoList.Value e _).
Qed.

Lemma RemoveOldest_evicted lru r lru' :
  evicted lru = None → RemoveOldest lru = Ok (r, lru') → evicted lru' = None.
Proof.
  intros Hev. unfold RemoveOldest, notify. rewrite Hev.
  destruct (GoList.Back (items (state lru))) as [[e it]|]; simpl;
    by intros [= _ <-].
Qed.

Lemma Set_with_user lru u k v :
  evicted lru = None →
  Set_ (with_user lru u) k v = (lru' ← Set_ lru k v; Ok (with_user lru' u)).
Proof.
  intros Hev. unfold Set_. simpl.
  destruct (elem (state lru) !! k) as [e|].
  - by destruct (GoList.Value e _).
  - simpl. case_bool_decide; [|done].
    match goal with |- RemoveOldest ?l ≫= _ = _ =>
      change l with (with_user
        (with_state lru
           {| elem := <[k:=GoList.unused (items (state lru))]> (elem (state lru));
              items := (GoList.PushFront (mkItem k v) (items (state lru))).2;
              size := size (state lru); trace := trace (state lru);
              user := user (state lru) |}) u) end.
    rewrite RemoveOldest_with_user by done.
    by destruct (RemoveOldest _) as [[r lru']|].
Qed.

Lemma Resize_loop_with_user fuel n count lru u :
  evicted lru = None →
  Resize_loop fuel n count (with_user lru u)
  = (r ← Resize_loop fuel n count lru; Ok (r.1, with_user r.2 u)).
Proof.
  revert count lru. induction fuel as [|fuel IH]; intros count lru Hev;
    cbn [Resize_loop]; change (Len (with_user lru u)) with (Len lru);
    (case_bool_decide; [|done]); [done|].
  rewrite RemoveOldest_with_user by done.
  destruct (RemoveOldest lru) as [[r lru']|] eqn:Hr; [|done]. simpl.
  apply IH. by eapply RemoveOldest_evicted.
Qed.

Lemma Clear_with_user fuel lru u :
  evicted lru = None →
  Clear fuel (with_user lru u) = (lru' ← Clear fuel lru; Ok (with_user lru' u)).
Proof.
  revert lru. induction fuel as [|fuel IH]; intros lru Hev;
    cbn [Clear]; change (Len (with_user lru u)) with (Len lru);
    (case_bool_decide; [|done]); [done|].
  rewrite RemoveOldest_with_user by done.
  destruct (RemoveOldest lru) as [[r lru']|] eqn:Hr; [|done]. simpl.
  apply IH. by eapply RemoveOldest_evicted.
Qed.
End more_behaviour.

(** * Facts about the mutex *)

Section keeps_facts.
Context {K V U : Type} `{Countable K} `{Zero K} `{Zero V}.
Context (P : U → Prop).
Import LRU.
Implicit Types (lru : t K V U) (d : data K V U) (k : K) (v : V).

Lemma lock_safe_bind {A B} (Q1 : A → Prop) (Q2 : B → Prop)
    (r : result A) (f : A → result B) :
  lock_safe Q1 r → (∀ a, Q1 a → lock_safe Q2 (f a)) → lock_safe Q2 (r ≫= f).
Proof. destruct r as [a|e]; simpl; [intros Ha Hf; by apply Hf | done]. Qed.

Lemma lock_safe_impl {A} (Q1 Q2 : A → Prop) (r : result A) :
  lock_safe Q1 r → (∀ a, Q1 a → Q2 a) → lock_safe Q2 r.
Proof. destruct r as [a|e]; simpl; [intros Ha Hq; by apply Hq | done]. Qed.

Lemma notify_keeps lru k v d :
  P (user d) → (∀ c, evicted lru = Some c → keeps P c) →
  lock_safe (λ d', P (user d')) (notify lru k v d).
Proof.
  intros HP Hcb. unfold notify. destruct (evicted lru) as [cb|]; [|done].
  by apply (Hcb cb).
Qed.

Lemma RemoveOldest_keeps lru :
  P (user (state lru)) → (∀ c, evicted lru = Some c → keeps P c) →
  lock_safe (λ r, kept P lru r.2) (RemoveOldest lru).
Proof.
  intros HP Hcb. unfold RemoveOldest.
  destruct (GoList.Back (items (state lru))) as [[e it]|]; [|done].
  eapply lock_safe_bind; [by apply notify_keeps|]. by intros d' Hd'.
Qed.

Lemma Remove_keeps lru k :
  P (user (state lru)) → (∀ c, evicted lru = Some c → keeps P c) →
  lock_safe (λ r, kept P lru r.2) (Remove lru k).
Proof.
  intros HP Hcb. unfold Remove.
  destruct (elem (state lru) !! k) as [e|]; [|done].
  destruct (GoList.Value e (items (state lru))) as [it|]; [|by left].
  eapply lock_safe_bind; [by apply notify_keeps|]. by intros d' Hd'.
Qed.

Lemma Set_keeps lru k v :
  P (user (state lru)) → (∀ c, evicted lru = Some c → keeps P c) →
  lock_safe (kept P lru) (Set_ lru k v).
Proof.
  intros HP Hcb. unfold Set_.
  destruct (elem (state lru) !! k) as [e|].
  - destruct (GoList.Value e _) as [it|]; [done | by left].
  - simpl. case_bool_decide; [|done].
    eapply lock_safe_bind; [by apply RemoveOldest_keeps|].
    by intros [r lru'] Hk.
Qed.

Lemma Get_keeps lru k :
  P (user (state lru)) → lock_safe (λ r, kept P lru r.2) (Get lru k).
Proof.
  intros HP. unfold Get. destruct (elem (state lru) !! k) as [e|]; [|done].
  destruct (GoList.Value e _) as [it|]; [done | by left].
Qed.

Lemma Pick_keeps lru k :
  P (user (state lru)) → lock_safe (λ r, kept P lru r.2) (Pick lru k).
Proof.
  intros HP. unfold Pick. destruct (elem (state lru) !! k) as [e|]; [|done].
  destruct (GoList.Value e _) as [it|]; [done | by left].
Qed.

Lemma Resize_loop_keeps fuel n count lru :
  P (user (state lru)) → (∀ c, evicted lru = Some c → keeps P c) →
  lock_safe (λ r, kept P lru r.2) (Resize_loop fuel n count lru).
Proof.
  revert count lru. induction fuel as [|fuel IH]; intros count lru HP Hcb; simpl;
    (case_bool_decide; [|done]); [by right|].
  eapply lock_safe_bind; [by apply RemoveOldest_keeps|].
  intros [r lru1] [HP1 Hev1]. simpl in *.
  eapply lock_safe_impl; [apply IH; [done | by rewrite Hev1]|].
  intros [r' lru'] [HP' Hev']. split; [done | simpl in *; congruence].
Qed.

Lemma Resize_keeps fuel lru n :
  P (user (state lru)) → (∀ c, evicted lru = Some c → keeps P c) →
  lock_safe (λ r, kept P lru r.2) (Resize fuel lru n).
Proof.
  intros HP Hcb. unfold Resize.
  eapply lock_safe_impl; [by apply Resize_loop_keeps|]. by intros [r lru'] Hk.
Qed.

Lemma Clear_keeps fuel lru :
  P (user (state lru)) → (∀ c, evicted lru = Some c → keeps P c) →
  lock_safe (kept P lru) (Clear fuel lru).
Proof.
  revert lru. induction fuel as [|fuel IH]; intros lru HP Hcb; simpl;
    (case_bool_decide; [|done]); [by right|].
  eapply lock_safe_bind; [by apply RemoveOldest_keeps|].
  intros [r lru1] [HP1 Hev1]. simpl in *.
  eapply lock_safe_impl; [apply IH; [done | by rewrite Hev1]|].
  intros lru' [HP' Hev']. split; [done | congruence].
Qed.

Lemma All_loop_keeps {A} fuel (yield : consumer K V U A) cur acc d :
  P (user d) → keeps_yield P yield →
  lock_safe (λ r, P (user r.2)) (All_loop fuel yield cur acc d).
Proof.
  revert cur acc d. induction fuel as [|fuel IH]; intros [e|] acc d HP Hy; simpl;
    [by right | done | | done].
  destruct (GoList.Value e (items d)) as [it|]; [|by left].
  eapply lock_safe_bind; [by apply Hy|].
  intros [[more acc'] d'] HP'. simpl in *. destruct more; [|done]. by apply IH.
Qed.

Lemma Backward_loop_keeps {A} fuel (yield : consumer K V U A) cur acc d :
  P (user d) → keeps_yield P yield →
  lock_safe (λ r, P (user r.2)) (Backward_loop fuel yield cur acc d).
Proof.
  revert cur acc d. induction fuel as [|fuel IH]; intros [e|] acc d HP Hy; simpl;
    [by right | done | | done].
  destruct (GoList.Value e (items d)) as [it|]; [|by left].
  eapply lock_safe_bind; [by apply Hy|].
  intros [[more acc'] d'] HP'. simpl in *. destruct more; [|done]. by apply IH.
Qed.

Lemma All_keeps {A} fuel lru (yield : consumer K V U A) acc :
  P (user (state lru)) → keeps_yield P yield →
  lock_safe (λ r, kept P lru r.2) (All fuel lru yield acc).
Proof.
  intros HP Hy. unfold All.
  eapply lock_safe_bind; [by apply All_loop_keeps|]. by intros [acc' d'] HP'.
Qed.

Lemma Backward_keeps {A} fuel lru (yield : consumer K V U A) acc :
  P (user (state lru)) → keeps_yield P yield →
  lock_safe (λ r, kept P lru r.2) (Backward fuel lru yield acc).
Proof.
  intros HP Hy. unfold Backward.
  eapply lock_safe_bind; [by apply Backward_loop_keeps|]. by intros [acc' d'] HP'.
Qed.
End keeps_facts.

Section mutex_facts.
Context {K V W : Type} `{Countable K} `{Zero K} `{Zero V}.
Import MutexLRU.
Implicit Types (m : t K V W) (l : LRU.t K V (outside W))
  (d : LRU.data K V (outside W)) (k : K) (v : V).

Lemma on_mut_Lock d :
  unlocked d → ∃ d', on_mut Lock d = Ok d' ∧ held d' ∧ released d' = released d.
Proof.
  intros Hu. unfold on_mut, unlocked in *. rewrite Hu. simpl.
  eexists. split; [done|]. by split.
Qed.

Lemma on_mut_Unlock d : held d → on_mut Unlock d = Ok (released d).
Proof. intros Hh. unfold on_mut, held in *. by rewrite Hh. Qed.

Lemma on_mut_RLock d :
  unlocked d →
  ∃ d', on_mut RLock d = Ok d'
    ∧ mut (LRU.user d') = {| writer := false; readers := 1 |}.
Proof.
  intros Hu. unfold on_mut, unlocked in *. rewrite Hu. simpl. by eexists.
Qed.

Lemma on_mut_RUnlock d :
  mut (LRU.user d) = {| writer := false; readers := 1 |} →
  on_mut RUnlock d = Ok (released d).
Proof. intros Hr. unfold on_mut. by rewrite Hr. Qed.

Lemma released_unlocked d : unlocked (released d).
Proof. done. Qed.

(** The closure made by [OnEvicted] runs the callback with the mutex
    unlocked and locks the mutex when the callback has returned. *)
Lemma handoff_held (cb : LRU.callback K V (outside W)) k v d :
  held d → handoff cb k v d = (d' ← cb k v (released d); on_mut Lock d').
Proof. intros Hh. unfold handoff. by rewrite on_mut_Unlock. Qed.

Lemma handoff_yield_held {A} (yield : LRU.consumer K V (outside W) A) k v acc d :
  held d →
  handoff_yield yield k v acc d
  = ('(more, acc', d') ← yield k v acc (released d);
     d'' ← on_mut Lock d'; Ok (more, acc', d'')).
Proof. intros Hh. unfold handoff_yield. by rewrite on_mut_Unlock. Qed.

Lemma handoff_keeps (cb : LRU.callback K V (outside W)) :
  reentrant cb →
  LRU.keeps write_locked (handoff cb).
Proof.
  intros Hcb k v d Hh. rewrite handoff_held by done.
  eapply lock_safe_bind; [apply Hcb, released_unlocked|].
  intros d' Hu. destruct (on_mut_Lock d' Hu) as (d'' & -> & Hh'' & _). done.
Qed.

Lemma handoff_yield_keeps {A} (yield : LRU.consumer K V (outside W) A) :
  reentrant_yield yield →
  LRU.keeps_yield write_locked (handoff_yield yield).
Proof.
  intros Hy k v acc d Hh. rewrite handoff_yield_held by done.
  eapply lock_safe_bind; [apply Hy, released_unlocked|].
  intros [[more acc'] d'] Hu. simpl in *.
  destruct (on_mut_Lock d' Hu) as (d'' & -> & Hh'' & _). done.
Qed.

Lemma guarded_keeps l c :
  guarded l → LRU.evicted l = Some c →
  LRU.keeps write_locked c.
Proof. intros Hg Hc. destruct (Hg c Hc) as (cb & -> & Hcb). by apply handoff_keeps. Qed.

Lemma exclusive_safe {A} m
    (body : LRU.t K V (outside W) → result (A * LRU.t K V (outside W))) :
  idle m →
  (∀ l, held (LRU.state l) → LRU.evicted l = LRU.evicted (lru m) →
     lock_safe (λ r, held (LRU.state r.2) ∧ guarded r.2) (body l)) →
  lock_safe (λ r, idle r.2) (exclusive m body).
Proof.
  intros [Hu Hg] Hbody. unfold exclusive.
  destruct (on_mut_Lock _ Hu) as (d & -> & Hh & _). simpl.
  eapply lock_safe_bind; [by apply Hbody|].
  intros [a l] [Hh' Hg']. simpl in *. rewrite on_mut_Unlock by done. simpl.
  by split.
Qed.

Lemma shared_safe {A} m
    (body : LRU.t K V (outside W) → result (A * LRU.t K V (outside W))) :
  idle m →
  (∀ l, LRU.evicted l = LRU.evicted (lru m) →
     lock_safe (λ r, mut (LRU.user (LRU.state r.2)) = mut (LRU.user (LRU.state l))
                     ∧ LRU.evicted r.2 = LRU.evicted l) (body l)) →
  lock_safe (λ r, idle r.2) (shared m body).
Proof.
  intros [Hu Hg] Hbody. unfold shared.
  destruct (on_mut_RLock _ Hu) as (d & -> & Hr). simpl.
  eapply lock_safe_bind; [by apply Hbody|].
  intros [a l] [Hr' Hev']. simpl in *.
  rewrite on_mut_RUnlock by congruence. simpl. split; [done|].
  unfold guarded. simpl. by rewrite Hev'.
Qed.

(** A method of the cache run by a method of the wrapper. *)
Lemma kept_guarded m l (l' : LRU.t K V (outside W)) :
  guarded (lru m) → LRU.evicted l = LRU.evicted (lru m) →
  LRU.kept write_locked l l' →
  held (LRU.state l') ∧ guarded l'.
Proof.
  intros Hg Hev [Hh Hev']. split; [done|]. unfold guarded. by rewrite Hev', Hev.
Qed.

Lemma run_safe {A} fuel (c : call K V W A) m :
  idle m → polite c → lock_safe idle (run fuel c m).
Proof.
  intros Hidle Hc. pose proof Hidle as [Hu Hg].
  assert (∀ l, LRU.evicted l = LRU.evicted (lru m) →
            ∀ c0, LRU.evicted l = Some c0 →
              LRU.keeps write_locked c0)
    as Hkeeps.
  { intros l Hev c0 Hc0. apply (guarded_keeps (lru m)); [done | congruence]. }
  destruct c as [cb|k v|k|k|k| |n| | |yield acc|yield acc]; simpl;
    (apply (lock_safe_bind (λ r, idle r.2) idle); [|by intros [a m'] Hm']).
  - apply exclusive_safe; [done|]. intros l Hh Hev. simpl. split; [done|].
    intros c0 [= <-]. by exists cb.
  - apply exclusive_safe; [done|]. intros l Hh Hev.
    eapply lock_safe_bind; [apply (Set_keeps write_locked); [exact Hh | by apply Hkeeps]|].
    intros l' Hk. by apply (kept_guarded m l).
  - apply exclusive_safe; [done|]. intros l Hh Hev.
    eapply lock_safe_impl; [apply (Get_keeps write_locked); exact Hh|].
    intros [r l'] Hk. by apply (kept_guarded m l).
  - apply shared_safe; [done|]. intros l Hev.
    eapply lock_safe_impl;
      [apply (Pick_keeps (λ u, mut u = mut (LRU.user (LRU.state l)))); done|].
    by intros [r l'] Hk.
  - apply exclusive_safe; [done|]. intros l Hh Hev.
    eapply lock_safe_impl; [apply (Remove_keeps write_locked); [exact Hh | by apply Hkeeps]|].
    intros [r l'] Hk. by apply (kept_guarded m l).
  - apply exclusive_safe; [done|]. intros l Hh Hev.
    eapply lock_safe_impl; [apply (RemoveOldest_keeps write_locked); [exact Hh | by apply Hkeeps]|].
    intros [r l'] Hk. by apply (kept_guarded m l).
  - apply exclusive_safe; [done|]. intros l Hh Hev.
    eapply lock_safe_impl; [apply (Resize_keeps write_locked); [exact Hh | by apply Hkeeps]|].
    intros [r l'] Hk. by apply (kept_guarded m l).
  - apply shared_safe; [done|]. by intros l Hev.
  - apply exclusive_safe; [done|]. intros l Hh Hev.
    eapply lock_safe_bind; [apply (Clear_keeps write_locked); [exact Hh | by apply Hkeeps]|].
    intros l' Hk. by apply (kept_guarded m l).
  - apply exclusive_safe; [done|]. intros l Hh Hev.
    eapply lock_safe_impl;
      [apply (All_keeps write_locked); [exact Hh | by apply handoff_yield_keeps]|].
    intros [r l'] Hk. by apply (kept_guarded m l).
  - apply exclusive_safe; [done|]. intros l Hh Hev.
    eapply lock_safe_impl;
      [apply (Backward_keeps write_locked); [exact Hh | by apply handoff_yield_keeps]|].
    intros [r l'] Hk. by apply (kept_guarded m l).
Qed.

Lemma Set_safe m k v : idle m → lock_safe (λ r, idle r.2) (Set_ m k v).
Proof.
  intros Hm. pose proof (run_safe (A := unit) O (CallSet unit k v) m Hm I) as Hr.
  cbn [run] in Hr. by destruct (Set_ m k v) as [[a m']|].
Qed.

Lemma OnEvicted_safe m cb :
  idle m → reentrant cb → lock_safe (λ r, idle r.2) (OnEvicted m cb).
Proof.
  intros Hm Hcb.
  pose proof (run_safe (A := unit) O (CallOnEvicted unit cb) m Hm Hcb) as Hr.
  cbn [run] in Hr. by destruct (OnEvicted m cb) as [[a m']|].
Qed.

(** C10.  The closures the wrapper makes around the eviction callback and
    around the consumer of [All] and [Backward] unlock the mutex, run the
    caller's code with the mutex unlocked, and lock the mutex again when
    that code has returned; [OnEvicted] registers such a closure.  So a
    method of the wrapper, called with the mutex unlocked, never fails on
    the mutex, not even when the caller's code calls methods of the wrapper
    itself: it returns with the mutex unlocked, or it panics or runs out of
    fuel, and it neither deadlocks nor unlocks an unlocked mutex. *)
Theorem handoff_discipline {A} fuel (c : call K V W A) m :
  idle m → polite c →
  lock_safe idle (run fuel c m)
  ∧ (∀ cb r, OnEvicted m cb = Ok r → LRU.evicted (lru r.2) = Some (handoff cb))
  ∧ (∀ (cb : LRU.callback K V (outside W)) k v d, held d →
       unlocked (released d)
       ∧ handoff cb k v d = (d' ← cb k v (released d); on_mut Lock d')
       ∧ ∀ d', unlocked d' → ∃ d'', on_mut Lock d' = Ok d'' ∧ held d'')
  ∧ (∀ (yield : LRU.consumer K V (outside W) A) k v acc d, held d →
       handoff_yield yield k v acc d
       = ('(more, acc', d') ← yield k v acc (released d);
          d'' ← on_mut Lock d'; Ok (more, acc', d''))).
Proof.
  intros Hidle Hc. split_and!.
  - by apply run_safe.
  - intros cb [[] m'] Hrun. unfold OnEvicted, exclusive in Hrun.
    destruct Hidle as [Hu _]. destruct (on_mut_Lock _ Hu) as (d & Hd & Hh & _).
    rewrite Hd in Hrun. simpl in Hrun.
    rewrite on_mut_Unlock in Hrun by done. simpl in Hrun. by simplify_eq.
  - intros cb k v d Hh. split_and!; [done | by apply handoff_held |].
    intros d' Hu. destruct (on_mut_Lock d' Hu) as (d'' & Hd'' & Hh'' & _).
    by exists d''.
  - intros yield k v acc d Hh. by apply handoff_yield_held.
Qed.
End mutex_facts.

(** * The properties of the cache *)

Section properties.
Context {K V U : Type} `{Countable K} `{Zero K} `{Zero V}.
Import LRU.
Implicit Types (lru : t K V U) (d : data K V U) (k : K) (v : V).

Lemma wf_absent lru k :
  wf (state lru) → elem (state lru) !! k = None ↔ k ∉ key <$> contents lru.
Proof.
  intros Hwf. rewrite (consistent_absent _ _ k Hwf), Forall_forall.
  unfold contents. rewrite <-list_fmap_compose. split.
  - intros Hall (x & -> & Hx)%list_elem_of_fmap. by apply (Hall x).
  - intros Hnotin x Hx Hk. apply Hnotin. rewrite <-Hk.
    by apply (list_elem_of_fmap_2 (key ∘ snd)).
Qed.

Lemma wf_present lru k :
  wf (state lru) → k ∈ key <$> contents lru → is_Some (elem (state lru) !! k).
Proof.
  intros Hwf Hin. apply not_eq_None_Some. intros Hk.
  by apply (wf_absent lru k Hwf) in Hk.
Qed.

Lemma wf_Len lru : wf (state lru) → Len lru = Z.of_nat (base.size (elem (state lru))).
Proof. intros Hwf. unfold Len, GoList.Len. by rewrite (consistent_size _ _ Hwf). Qed.

(** C6.  [Pick] returns the value and the flag that [Get] returns, and,
    unlike [Get], returns the cache exactly as it was: same entries in
    the same order, same length, same capacity. *)
Theorem Pick_like_Get lru k :
  wf (state lru) →
  ∃ v found, Pick lru k = Ok (v, found, lru)
    ∧ ∃ lru', Get lru k = Ok (v, found, lru').
Proof.
  intros Hwf. destruct (elem (state lru) !! k) as [e|] eqn:Hk.
  - destruct (Pick_present lru k e Hwf Hk) as (v0 & Hin & Hpick).
    destruct (Get_present lru k e Hwf Hk) as (v1 & lru' & Hin' & Hget & _).
    exists v0, true. split; [done|]. exists lru'.
    pose proof (consistent_Value _ _ _ _ Hwf Hin) as Hv0.
    pose proof (consistent_Value _ _ _ _ Hwf Hin') as Hv1.
    rewrite Hv0 in Hv1. by simplify_eq.
  - exists zero, false. split; [by apply Pick_absent|].
    exists lru. by apply Get_absent.
Qed.

(** C7.  [Set] on a key of the cache puts the key in front with the new
    value and keeps every other entry, in order; it calls no callback and
    changes neither the length nor anything else, whatever the capacity. *)
Theorem Set_existing lru k v :
  wf (state lru) → k ∈ key <$> contents lru →
  ∃ lru', Set_ lru k v = Ok lru'
    ∧ contents lru' = mkItem k v :: filter (λ it, key it ≠ k) (contents lru)
    ∧ (∀ it, key it ≠ k → it ∈ contents lru' ↔ it ∈ contents lru)
    ∧ Len lru' = Len lru
    ∧ trace (state lru') = trace (state lru)
    ∧ user (state lru') = user (state lru)
    ∧ size (state lru') = size (state lru)
    ∧ evicted lru' = evicted lru.
Proof.
  intros Hwf [e Hk]%wf_present; [|done].
  destruct (Set_present lru k v e Hwf Hk)
    as (lru' & Hset & Hc & Hwf' & Hel & Hsz & Htr & Hus & Hev).
  exists lru'. split_and!; try done.
  - intros it Hit. rewrite Hc, elem_of_cons, list_elem_of_filter. split.
    + intros [-> | [_ ?]]; [by destruct Hit | done].
    + intros Hin. by right.
  - by rewrite !wf_Len, Hel.
Qed.

(** C8.  [Remove] of a key that is not in the cache, and [RemoveOldest]
    on an empty cache, return zero values and [false] and the cache as it
    was; no callback is called. *)
Theorem Remove_absent_RemoveOldest_empty lru k :
  wf (state lru) →
  (k ∉ key <$> contents lru → Remove lru k = Ok (zero, false, lru))
  ∧ (contents lru = [] → RemoveOldest lru = Ok (zero, zero, false, lru)).
Proof.
  intros Hwf. split.
  - intros Hk. apply Remove_absent. by apply wf_absent.
  - intros Hc. apply RemoveOldest_empty. by apply fmap_nil_inv in Hc.
Qed.
Lemma elem_of_removelast {A} (x : A) (l : list A) : x ∈ removelast l → x ∈ l.
Proof.
  destruct (last l) as [y|] eqn:Hlast.
  - apply last_Some in Hlast as [rest ->]. rewrite removelast_last.
    intros Hx. apply elem_of_app. by left.
  - apply last_None in Hlast as ->. done.
Qed.

(** [Set] calls on a cache made with a positive capacity: the keys of the
    cache are keys that were set, and as long as the capacity is not
    reached every key that was set is in the cache. *)
Lemma run_sets_keys (N : Z) (u : U) kvs :
  0 < N →
  ∃ lru, run_sets (New N u) kvs = Ok lru
    ∧ wf (state lru) ∧ evicted lru = None ∧ size (state lru) = N ∧ Len lru ≤ N
    ∧ (∀ x, x ∈ key <$> contents lru → x ∈ kvs.*1)
    ∧ (Len lru < N → ∀ x, x ∈ kvs.*1 → x ∈ key <$> contents lru).
Proof.
  intros HN. induction kvs as [|[k v] kvs IH] using rev_ind.
  - exists (New N u). split_and!; try done; [apply consistent_New|].
    unfold Len, GoList.Len. simpl. lia.
  - destruct IH as (lru & Hrun & Hwf & Hev & Hsz & Hlen & Hsub & Hall).
    rewrite run_sets_snoc, Hrun. simpl. rewrite fmap_app. simpl.
    destruct (elem (state lru) !! k) as [e|] eqn:Hk.
    + destruct (Set_present lru k v e Hwf Hk)
        as (lru' & -> & Hc & Hwf' & Hel & Hsz' & _ & _ & Hev').
      assert (Len lru' = Len lru) as HL by (by rewrite !wf_Len, Hel).
      exists lru'. split_and!; try congruence.
      * intros x. rewrite Hc, fmap_cons. simpl.
        intros [->|Hx]%elem_of_cons; apply elem_of_app; [right; by left|left].
        apply Hsub. apply list_elem_of_fmap in Hx as (it & -> & Hit).
        apply list_elem_of_filter in Hit as [_ Hit]. by apply list_elem_of_fmap_2.
      * rewrite HL. intros Hlt x Hx. rewrite Hc, fmap_cons. simpl.
        destruct (decide (x = k)) as [->|Hne]; [by left|]. right.
        apply elem_of_app in Hx as [Hx|Hx]; [|by apply list_elem_of_singleton in Hx].
        apply (Hall Hlt) in Hx. apply list_elem_of_fmap in Hx as (it & -> & Hit).
        apply list_elem_of_fmap_2. by apply list_elem_of_filter.
    + destruct (Set_absent lru k v Hwf) as (lru' & -> & Hc & Hlen' & Hwf' & Hsz' & Hev');
        [by intros cb; rewrite Hev | done |].
      exists lru'. split_and!; try congruence.
      * rewrite Hlen'. case_bool_decide; lia.
      * intros x. rewrite Hc, fmap_cons. simpl.
        intros [->|Hx]%elem_of_cons; apply elem_of_app; [right; by left|left].
        apply Hsub. case_bool_decide; [|done].
        apply list_elem_of_fmap in Hx as (it & -> & Hit).
        by apply list_elem_of_fmap_2, elem_of_removelast.
      * rewrite Hlen'. case_bool_decide as Hfull; [lia|].
        intros Hlt x Hx. rewrite Hc, fmap_cons. simpl.
        apply elem_of_app in Hx as [Hx|Hx].
        -- right. apply Hall; [lia|done].
        -- apply list_elem_of_singleton in Hx as ->. by left.
Qed.

(** C2.  Starting from [New(N)] with [N > 0], after any sequence of [Set]
    calls the cache holds at most [N] entries: as many as there were
    different keys, up to [N].  A [Set] of a new key then puts its entry in
    front; on the full cache it evicts exactly the entry at the back, and
    below the capacity it evicts nothing. *)
Theorem Set_capacity (N : Z) (u : U) (kvs : list (K * V)) :
  0 < N →
  ∃ lru, run_sets (New N u) kvs = Ok lru
    ∧ Len lru ≤ N
    ∧ Len lru = Z.min N (Z.of_nat (base.size (list_to_set kvs.*1 : gset K)))
    ∧ ∀ k v, k ∉ key <$> contents lru →
        ∃ lru', Set_ lru k v = Ok lru'
          ∧ contents lru'
            = mkItem k v :: (if bool_decide (Len lru = N)
                             then removelast (contents lru) else contents lru)
          ∧ Len lru' = Z.min N (Len lru + 1).
Proof.
  intros HN.
  destruct (run_sets_keys N u kvs HN)
    as (lru & Hrun & Hwf & Hev & Hsz & Hlen & Hsub & Hall).
  exists lru. split_and!; [done..| |].
  - pose proof (consistent_NoDup_keys _ _ Hwf) as Hnd. fold (contents lru) in Hnd.
    assert (Len lru
            = Z.of_nat (base.size (list_to_set (key <$> contents lru) : gset K)))
      as HL by (by rewrite size_list_to_set, Len_contents, length_fmap).
    assert ((list_to_set (key <$> contents lru) : gset K) ⊆ list_to_set kvs.*1)
      as Hincl by (intros x; rewrite !elem_of_list_to_set; apply Hsub).
    apply subseteq_size in Hincl.
    destruct (decide (Len lru < N)) as [Hlt|Hge]; [|lia].
    assert ((list_to_set (key <$> contents lru) : gset K) = list_to_set kvs.*1)
      as Heq.
    { apply set_eq. intros x. rewrite !elem_of_list_to_set. split; [apply Hsub|].
      by apply Hall. }
    rewrite Heq in HL. lia.
  - intros k v Hk.
    destruct (Set_absent lru k v Hwf) as (lru' & Hset & Hc & Hlen' & _);
      [by intros cb; rewrite Hev | by apply wf_absent |].
    exists lru'. split_and!; [done | |].
    + rewrite Hc. by repeat case_bool_decide; try lia.
    + rewrite Hlen'. case_bool_decide; lia.
Qed.

(** C3, amended.  If the registered callback leaves the cache alone, then
    after [Set(k, v)] a traversal by [All] yields [(k, v)] first; and
    after a [Get(k)] that finds [k] a traversal by [All] yields [k]
    first, with the value found. *)
Theorem recency lru k v :
  wf (state lru) →
  (undisturbed lru →
   ∃ lru' rest, Set_ lru k v = Ok lru'
     ∧ ∀ fuel, (length (contents lru') ≤ fuel)%nat →
         All fuel lru' collect [] = Ok ((k, v) :: rest, lru'))
  ∧ (∀ v' lru', Get lru k = Ok (v', true, lru') →
     ∃ rest, ∀ fuel, (length (contents lru') ≤ fuel)%nat →
         All fuel lru' collect [] = Ok ((k, v') :: rest, lru')).
Proof.
  intros Hwf. split.
  - intros Hq. destruct (elem (state lru) !! k) as [e|] eqn:Hk.
    + destruct (Set_present lru k v e Hwf Hk) as (lru' & Hset & Hc & Hwf' & _).
      exists lru'. eexists. split; [done|]. intros fuel Hfuel.
      rewrite All_collect by done. by rewrite Hc.
    + destruct (Set_absent lru k v Hwf Hq Hk) as (lru' & Hset & Hc & _ & Hwf' & _).
      exists lru'. eexists. split; [done|]. intros fuel Hfuel.
      rewrite All_collect by done. by rewrite Hc.
  - intros v' lru' Hget. destruct (elem (state lru) !! k) as [e|] eqn:Hk.
    + destruct (Get_present lru k e Hwf Hk) as (v0 & lru0 & _ & Hget0 & Hc & Hwf' & _).
      rewrite Hget0 in Hget. simplify_eq. eexists. intros fuel Hfuel.
      rewrite All_collect by done. by rewrite Hc.
    + by rewrite Get_absent in Hget.
Qed.

(** C4.  In every reachable cache the index and the list are in
    bijection: every key of the index has its element at exactly one
    position of the list, that element holds the key, every element of the
    list is indexed under its key, and the index has as many keys as the
    list has elements, which is [Len]. *)
Theorem index_list_bijection lru :
  reachable lru →
  let m := elem (state lru) in
  let es := GoList.elems (items (state lru)) in
  (∀ k e, m !! k = Some e →
     ∃ i v, es !! i = Some (e, mkItem k v)
       ∧ ∀ j x, es !! j = Some x → x.1 = e ∨ key x.2 = k → j = i)
  ∧ (∀ i x, es !! i = Some x → m !! key x.2 = Some x.1)
  ∧ base.size m = length es
  ∧ Len lru = Z.of_nat (base.size m).
Proof.
  intros (Hwf & _)%reachable_sound. simpl. split_and!.
  - intros k e Hk. destruct (consistent_index _ _ k e Hwf Hk) as [v Hv].
    apply list_elem_of_lookup in Hv as [i Hi]. exists i, v. split; [done|].
    intros j x Hj Hx.
    assert (x.1 = e) as Hxe.
    { apply (consistent_addr_key _ _ k e x Hwf Hk);
        [by apply list_elem_of_lookup; exists j|].
      destruct Hx as [Hx | Hx]; [|done].
      by apply (consistent_addr_key _ _ k e x Hwf Hk);
        [apply list_elem_of_lookup; exists j|]. }
    destruct Hwf as (Hnd & _).
    apply (NoDup_lookup _ j i e Hnd); rewrite list_lookup_fmap.
    + rewrite Hj. simpl. by rewrite Hxe.
    + by rewrite Hi.
  - intros i x Hi. apply (consistent_elem_of _ _ x Hwf).
    apply list_elem_of_lookup. by exists i.
  - by apply consistent_size.
  - by apply wf_Len.
Qed.

(** C5, amended.  If the registered callback leaves the cache alone,
    [Clear] calls it once for every entry, least recently used first, with
    the key and the value of that entry, and leaves the cache empty. *)
Theorem Clear_notifies lru fuel :
  wf (state lru) → undisturbed lru → (length (contents lru) ≤ fuel)%nat →
  ∃ lru', Clear fuel lru = Ok lru'
    ∧ Len lru' = 0
    ∧ (is_Some (evicted lru) →
       calls (state lru') = calls (state lru) ++ pairs (reverse (contents lru))).
Proof.
  intros Hwf Hq Hfuel.
  destruct (Clear_quiet lru fuel Hwf Hq Hfuel) as (lru' & Hrun & Hc & _ & _ & _ & Hcalls).
  exists lru'. split_and!; [done | by rewrite Len_contents, Hc |].
  intros [cb Hcb]. by rewrite Hcb in Hcalls.
Qed.

(** C9.  Whenever the callback has been called, it was called for a key
    that was by then in neither the index nor the list: [Get], [Pick] and
    [Remove] of that key on the cache as the callback found it report that
    the key is not there. *)
Theorem callback_after_detach lru :
  reachable lru →
  Forall (λ ev, detached ev
            ∧ ∀ lru0, elem (state lru0) = ev_elem ev →
                      items (state lru0) = ev_items ev →
                Get lru0 (ev_key ev) = Ok (zero, false, lru0)
                ∧ Pick lru0 (ev_key ev) = Ok (zero, false, lru0)
                ∧ Remove lru0 (ev_key ev) = Ok (zero, false, lru0))
         (trace (state lru)).
Proof.
  intros (_ & _ & Htr)%reachable_sound.
  eapply Forall_impl; [exact Htr|]. intros ev Hev. split; [done|].
  intros lru0 Hel Hit. destruct Hev as [Hk _]. rewrite <-Hel in Hk.
  split_and!; [by apply Get_absent | by apply Pick_absent | by apply Remove_absent].
Qed.
End properties.

(** * Further properties of the cache *)

Section more_properties.
Context {K V U : Type} `{Countable K} `{Zero K} `{Zero V}.
Import LRU.
Implicit Types (lru : t K V U) (d : data K V U) (k : K) (v : V).


(** X2.  On a cache that is not empty, and whose callback, if one is
    registered, leaves the cache alone, [RemoveOldest] returns the key and
    the value of the least recently used entry and [true], takes that entry
    out, and calls the callback once, with that key and value. *)
Theorem RemoveOldest_existing lru it :
  wf (state lru) → undisturbed lru → last (contents lru) = Some it →
  ∃ lru', RemoveOldest lru = Ok (key it, value it, true, lru')
    ∧ contents lru' = removelast (contents lru)
    ∧ Len lru' = Len lru - 1
    ∧ calls (state lru')
      = calls (state lru) ++ match evicted lru with
                             | Some _ => [(key it, value it)]
                             | None => []
                             end.
Proof.
  intros Hwf Hq (es & e & Hes)%contents_last.
  destruct (RemoveOldest_quiet lru es e it Hwf Hq Hes)
    as (lru' & Hrun & Hes' & _ & _ & _ & Hcalls).
  exists lru'. split_and!; try done.
  - unfold contents. by rewrite Hes', Hes, fmap_snoc, removelast_last.
  - unfold Len, GoList.Len. rewrite Hes', Hes, length_app. simpl. lia.
Qed.

(** X3.  On a cache whose callback, if one is registered, leaves the
    cache alone, [Resize(n)] with [n >= 0] sets the capacity to [n], evicts
    the entries beyond the [n] most recently used ones, least recently used
    first, calling the callback for each, and returns their number. *)
Theorem Resize_evicts_oldest lru n fuel :
  wf (state lru) → undisturbed lru → 0 ≤ n →
  (length (contents lru) - Z.to_nat n ≤ fuel)%nat →
  ∃ lru', Resize fuel lru n = Ok (Z.max 0 (Len lru - n), lru')
    ∧ contents lru' = take (Z.to_nat n) (contents lru)
    ∧ size (state lru') = n
    ∧ calls (state lru')
      = calls (state lru) ++ match evicted lru with
                             | Some _ =>
                                 pairs (reverse (drop (Z.to_nat n) (contents lru)))
                             | None => []
                             end.
Proof.
  intros Hwf Hq Hn Hfuel. unfold Resize.
  match goal with |- context [Resize_loop fuel n 0 ?l] =>
    destruct (Resize_loop_quiet fuel n 0 l) as (lru' & Hrun & Hc & _ & Hsz & _ & Hcalls)
  end; [done..|].
  exists lru'. by split_and!.
Qed.

(** X4.  With a negative argument [Resize] never returns, whatever the
    cache and the callback: its loop runs as long as the length exceeds the
    argument, so that no number of iterations gives a result. *)
Theorem Resize_negative_never_returns fuel lru n :
  n < 0 → ∃ f, Resize fuel lru n = Fail f.
Proof.
  intros Hn.
  assert (∀ count (l : t K V U), ∃ f, Resize_loop fuel n count l = Fail f) as Hloop;
    [|apply Hloop].
  induction fuel as [|fuel IH]; intros count l; cbn [Resize_loop];
    (rewrite bool_decide_true by (unfold Len, GoList.Len; lia)); [by eexists|].
  destruct (RemoveOldest l) as [[r1 l1]|f]; [|by exists f]. simpl. apply IH.
Qed.

(** X5.  What [Set] puts in the cache, [Get] and [Pick] find: after
    [Set(k, v)] both return [v] and [true] for [k]. *)
Theorem Set_then_Get lru k v :
  wf (state lru) → undisturbed lru →
  ∃ lru', Set_ lru k v = Ok lru'
    ∧ Pick lru' k = Ok (v, true, lru')
    ∧ ∃ lru'', Get lru' k = Ok (v, true, lru'').
Proof.
  intros Hwf Hq.
  assert (∃ lru' rest, Set_ lru k v = Ok lru' ∧ wf (state lru')
                       ∧ contents lru' = mkItem k v :: rest)
    as (lru' & rest & Hset & Hwf' & Hc).
  { destruct (elem (state lru) !! k) as [e|] eqn:Hk.
    - destruct (Set_present lru k v e Hwf Hk) as (lru' & ? & ? & ? & _). eauto.
    - destruct (Set_absent lru k v Hwf Hq Hk) as (lru' & ? & ? & _ & ? & _). eauto. }
  exists lru'. split; [done|].
  unfold contents in Hc.
  destruct (GoList.elems (items (state lru'))) as [|[e it] es] eqn:Hes; [done|].
  simpl in Hc. injection Hc as -> _.
  assert ((e, mkItem k v) ∈ GoList.elems (items (state lru'))) as Hin
    by (rewrite Hes; by left).
  pose proof (consistent_elem_of _ _ _ Hwf' Hin) as Hk'. simpl in Hk'.
  pose proof (consistent_Value _ _ _ _ Hwf' Hin) as Hv.
  split.
  - unfold Pick. by rewrite Hk', Hv.
  - unfold Get. rewrite Hk', Value_MoveToFront, Hv. by eexists.
Qed.

(** X6.  [Set] of a new key evicts nothing when the capacity is not
    positive or not yet reached: the entry is put in front of the others and
    no callback is called. *)
Theorem Set_new_without_eviction lru k v :
  wf (state lru) → k ∉ key <$> contents lru →
  size (state lru) ≤ 0 ∨ Len lru < size (state lru) →
  ∃ lru', Set_ lru k v = Ok lru'
    ∧ contents lru' = mkItem k v :: contents lru
    ∧ trace (state lru') = trace (state lru)
    ∧ user (state lru') = user (state lru)
    ∧ size (state lru') = size (state lru).
Proof.
  intros Hwf Hk%wf_absent Hroom; [|done]. unfold Set_. rewrite Hk. simpl.
  rewrite bool_decide_false
    by (unfold Len, GoList.Len in *; simpl; lia).
  by eexists.
Qed.

(** X7.  On a cache that has reached its positive capacity, and whose
    callback, if one is registered, leaves the cache alone, [Set] of a new
    key evicts the least recently used entry, and only that one, and calls
    the callback once, with the key and the value of that entry. *)
Theorem Set_evicts_oldest lru k v :
  wf (state lru) → undisturbed lru → k ∉ key <$> contents lru →
  0 < size (state lru) ≤ Len lru →
  ∃ it lru', last (contents lru) = Some it
    ∧ Set_ lru k v = Ok lru'
    ∧ contents lru' = mkItem k v :: removelast (contents lru)
    ∧ calls (state lru')
      = calls (state lru) ++ match evicted lru with
                             | Some _ => [(key it, value it)]
                             | None => []
                             end.
Proof.
  intros Hwf Hq Hk%wf_absent Hfull; [|done].
  assert (∃ es0 e it, GoList.elems (items (state lru)) = es0 ++ [(e, it)])
    as (es0 & e & it & Hes0).
  { destruct (last (GoList.elems (items (state lru)))) as [[e it]|] eqn:Hlast.
    - apply last_Some in Hlast as [es0 ->]. by exists es0, e, it.
    - apply last_None in Hlast. unfold Len, GoList.Len in Hfull.
      rewrite Hlast in Hfull. simpl in Hfull. lia. }
  exists it. unfold Set_. rewrite Hk. simpl.
  rewrite bool_decide_true by (unfold Len, GoList.Len in *; simpl; lia).
  match goal with |- context [RemoveOldest ?l] =>
    destruct (RemoveOldest_quiet l
                ((GoList.unused (items (state lru)), mkItem k v) :: es0) e it)
      as (lru2 & -> & Hes2 & _ & _ & _ & Hcalls)
  end; [by apply consistent_push | done | simpl; by rewrite Hes0 |].
  exists lru2. simpl. unfold contents. rewrite Hes2, Hes0, fmap_cons, fmap_app. simpl.
  rewrite last_snoc, removelast_last. by split_and!.
Qed.

(** X8.  [Get] of a key of the cache returns its value and [true] and
    moves the entry to the front, keeping the others in order; [Get] of any
    other key returns the zero value and [false] and leaves the cache as it
    is.  Neither calls the callback nor changes the length. *)
Theorem Get_hit_or_miss lru k :
  wf (state lru) →
  (k ∈ key <$> contents lru →
   ∃ v lru', Get lru k = Ok (v, true, lru')
     ∧ mkItem k v ∈ contents lru
     ∧ contents lru' = mkItem k v :: filter (λ it, key it ≠ k) (contents lru)
     ∧ Len lru' = Len lru
     ∧ trace (state lru') = trace (state lru)
     ∧ user (state lru') = user (state lru))
  ∧ (k ∉ key <$> contents lru → Get lru k = Ok (zero, false, lru)).
Proof.
  intros Hwf. split.
  - intros [e Hk]%wf_present; [|done].
    destruct (Get_present lru k e Hwf Hk)
      as (v & lru' & Hin & Hget & Hc & Hwf' & Hel & _ & Htr & Hus & _).
    exists v, lru'. split_and!; try done.
    + unfold contents. by apply (list_elem_of_fmap_2 snd _ (e, mkItem k v)).
    + by rewrite !wf_Len, Hel.
  - intros Hk. apply Get_absent. by apply wf_absent.
Qed.

(** X9.  A traversal by [Backward] yields the entries that a traversal by
    [All] yields, in the opposite order, and both leave the cache as it
    is. *)
Theorem Backward_reverses_All lru fuel :
  wf (state lru) → (length (contents lru) ≤ fuel)%nat →
  ∃ kvs, All fuel lru collect [] = Ok (kvs, lru)
    ∧ Backward fuel lru collect [] = Ok (reverse kvs, lru)
    ∧ kvs = pairs (contents lru).
Proof.
  intros Hwf Hfuel. exists (pairs (contents lru)).
  rewrite All_collect, Backward_collect by done. unfold pairs.
  by rewrite fmap_reverse.
Qed.

(** X10.  [All] gives its consumer the entries from the most recently
    used one on, and [Backward] from the least recently used one on, until
    the consumer answers [false]; the entries after that are not visited,
    and the cache is left as it is. *)
Theorem traversal_stops_early {A} (f : K → V → A → bool * A) lru fuel acc :
  wf (state lru) → (length (contents lru) ≤ fuel)%nat →
  All fuel lru (pure_consumer f) acc
  = Ok (visit f acc (pairs (contents lru)), lru)
  ∧ Backward fuel lru (pure_consumer f) acc
    = Ok (visit f acc (pairs (reverse (contents lru))), lru).
Proof.
  intros (Hnd & _) Hfuel. unfold contents in *. rewrite length_fmap in Hfuel.
  split.
  - unfold All, GoList.Front.
    rewrite (All_loop_visit f _ (state lru) [] (GoList.elems (items (state lru))));
      simpl; [by rewrite with_state_id | done..].
  - unfold Backward, GoList.Back. rewrite <-head_reverse.
    rewrite (Backward_loop_visit f _ (state lru) []
               (reverse (GoList.elems (items (state lru))))); simpl.
    + by rewrite with_state_id, fmap_reverse.
    + done.
    + done.
    + by rewrite fmap_reverse, reverse_Permutation.
    + by rewrite length_reverse.
Qed.

(** X11.  In every reachable cache the keys of the entries are distinct:
    a traversal never yields the same key twice. *)
Theorem keys_distinct lru :
  reachable lru → NoDup (key <$> contents lru).
Proof.
  intros (Hwf & _)%reachable_sound. by apply (consistent_NoDup_keys (elem (state lru))).
Qed.

(** The loops of [Resize] and [Clear] end when the length no longer
    exceeds the bound. *)
Lemma Resize_loop_exit fuel n count lru r lru' :
  wf (state lru) → undisturbed lru →
  Resize_loop fuel n count lru = Ok (r, lru') →
  Len lru' ≤ n ∧ wf (state lru') ∧ size (state lru') = size (state lru)
  ∧ evicted lru' = evicted lru.
Proof.
  revert count lru. induction fuel as [|fuel IH]; intros count lru Hwf Hq;
    cbn [Resize_loop]; (case_bool_decide as Hlen; [|intros [= _ <-]; split_and!; [lia|done..]]);
    [done|].
  destruct (last (GoList.elems (items (state lru)))) as [[e it]|] eqn:Hlast.
  - apply last_Some in Hlast as [es Hes].
    destruct (RemoveOldest_quiet lru es e it Hwf Hq Hes)
      as (lru1 & -> & _ & Hwf1 & Hsz1 & Hev1 & _).
    simpl. intros Hrun. apply IH in Hrun as (? & ? & ? & ?);
      [split_and!; congruence | done | unfold undisturbed; by rewrite Hev1].
  - apply last_None in Hlast. rewrite RemoveOldest_empty by done. simpl.
    by apply IH.
Qed.

Lemma Clear_exit fuel lru lru' :
  wf (state lru) → undisturbed lru →
  Clear fuel lru = Ok lru' →
  Len lru' ≤ 0 ∧ wf (state lru') ∧ size (state lru') = size (state lru)
  ∧ evicted lru' = evicted lru.
Proof.
  revert lru. induction fuel as [|fuel IH]; intros lru Hwf Hq;
    cbn [Clear]; (case_bool_decide as Hlen; [|intros [= <-]; split_and!; [lia|done..]]);
    [done|].
  destruct (last (GoList.elems (items (state lru)))) as [[e it]|] eqn:Hlast.
  - apply last_Some in Hlast as [es Hes].
    destruct (RemoveOldest_quiet lru es e it Hwf Hq Hes)
      as (lru1 & -> & _ & Hwf1 & Hsz1 & Hev1 & _).
    simpl. intros Hrun. apply IH in Hrun as (? & ? & ? & ?);
      [split_and!; congruence | done | unfold undisturbed; by rewrite Hev1].
  - apply last_None in Hlast. rewrite RemoveOldest_empty by done. simpl.
    by apply IH.
Qed.

Lemma exec_bounded fuel o lru lru' :
  wf (state lru) → undisturbed lru →
  (0 < size (state lru) → Len lru ≤ size (state lru)) →
  exec fuel o lru = Ok lru' →
  wf (state lru') ∧ undisturbed lru'
  ∧ (0 < size (state lru') → Len lru' ≤ size (state lru')).
Proof.
  intros Hwf Hq Hb.
  assert (∀ l : t K V U, evicted l = evicted lru → undisturbed l) as Hq'
    by (intros l Hl; unfold undisturbed; by rewrite Hl).
  destruct o as [k v|k|k|k| |n|]; simpl.
  - destruct (elem (state lru) !! k) as [e|] eqn:Hk.
    + destruct (Set_present lru k v e Hwf Hk)
        as (l & -> & _ & Hwf' & Hel & Hsz & _ & _ & Hev).
      intros [= <-]. split_and!; [done | by apply Hq' |].
      rewrite Hsz, !wf_Len, Hel, <-wf_Len by done. done.
    + destruct (Set_absent lru k v Hwf Hq Hk) as (l & -> & _ & Hlen & Hwf' & Hsz & Hev).
      intros [= <-]. split_and!; [done | by apply Hq' |].
      rewrite Hsz, Hlen. intros Hpos. specialize (Hb Hpos). case_bool_decide; lia.
  - destruct (elem (state lru) !! k) as [e|] eqn:Hk.
    + destruct (Get_present lru k e Hwf Hk)
        as (v & l & _ & -> & _ & Hwf' & Hel & Hsz & _ & _ & Hev).
      simpl. intros [= <-]. split_and!; [done | by apply Hq' |].
      rewrite Hsz, !wf_Len, Hel, <-wf_Len by done. done.
    + rewrite Get_absent by done. simpl. by intros [= <-].
  - destruct (elem (state lru) !! k) as [e|] eqn:Hk.
    + destruct (Pick_present lru k e Hwf Hk) as (v & _ & ->). simpl. by intros [= <-].
    + rewrite Pick_absent by done. simpl. by intros [= <-].
  - destruct (elem (state lru) !! k) as [e|] eqn:Hk.
    + destruct (Remove_quiet lru k e Hwf Hq Hk)
        as (v & l & _ & -> & Hes & _ & Hwf' & Hsz & Hev & _).
      simpl. intros [= <-]. split_and!; [done | by apply Hq' |].
      rewrite Hsz. intros Hpos. specialize (Hb Hpos).
      unfold Len, GoList.Len in *. rewrite Hes.
      pose proof (length_filter (λ x : addr * item K V, x.1 ≠ e)
                    (GoList.elems (items (state lru)))) as Hle.
      unfold GoList.drop_elem. lia.
    + rewrite Remove_absent by done. simpl. by intros [= <-].
  - destruct (last (GoList.elems (items (state lru)))) as [[e it]|] eqn:Hlast.
    + apply last_Some in Hlast as [es Hes].
      destruct (RemoveOldest_quiet lru es e it Hwf Hq Hes)
        as (l & -> & Hes' & Hwf' & Hsz & Hev & _).
      simpl. intros [= <-]. split_and!; [done | by apply Hq' |].
      rewrite Hsz. intros Hpos. specialize (Hb Hpos).
      unfold Len, GoList.Len in *. rewrite Hes'. rewrite Hes, length_app in Hb.
      simpl in Hb. lia.
    + apply last_None in Hlast. rewrite RemoveOldest_empty by done. simpl.
      by intros [= <-].
  - destruct (Resize fuel lru n) as [[r l]|] eqn:Hrun; [|done]. simpl.
    intros [= <-]. unfold Resize in Hrun.
    apply Resize_loop_exit in Hrun as (Hlen & Hwf' & Hsz & Hev); [|done..].
    simpl in *. split_and!; [done | by apply Hq' |]. rewrite Hsz. by intros _.
  - intros Hrun. apply Clear_exit in Hrun as (Hlen & Hwf' & Hsz & Hev); [|done..].
    split_and!; [done | by apply Hq' |]. rewrite Hsz. intros Hpos. lia.
Qed.

(** X12.  Whatever methods are called, in whatever order, on a cache whose
    callback leaves it alone, a positive capacity bounds the length:
    the cache never holds more entries than its capacity of the moment. *)
Theorem capacity_bound fuel lru os lru' :
  wf (state lru) → undisturbed lru →
  (0 < size (state lru) → Len lru ≤ size (state lru)) →
  run_ops fuel lru os = Ok lru' →
  0 < size (state lru') → Len lru' ≤ size (state lru').
Proof.
  intros Hwf Hq Hb Hrun.
  cut (wf (state lru') ∧ undisturbed lru'
       ∧ (0 < size (state lru') → Len lru' ≤ size (state lru'))); [by intros (_ & _ & ?)|].
  revert lru' Hrun. induction os as [|o os IH] using rev_ind; intros lru' Hrun.
  - injection Hrun as <-. done.
  - unfold run_ops in *. rewrite foldl_snoc in Hrun.
    destruct (foldl _ _ os) as [lru1|]; [|done]. simpl in Hrun.
    destruct (IH lru1 eq_refl) as (Hwf1 & Hq1 & Hb1).
    by apply (exec_bounded fuel o lru1).
Qed.
(** X15.  A [Get] saves an entry from the next eviction: on a cache of
    at least two entries that has reached its positive capacity, and whose
    callback, if one is registered, leaves the cache alone, after a [Get]
    that finds [k], the [Set] of a new key evicts another entry and [k]
    stays. *)
Theorem Get_saves_from_eviction lru k k' v' :
  wf (state lru) → undisturbed lru →
  k ∈ key <$> contents lru → k' ∉ key <$> contents lru →
  0 < size (state lru) ≤ Len lru → 2 ≤ Len lru →
  ∃ v lru1 lru2,
    Get lru k = Ok (v, true, lru1)
    ∧ Set_ lru1 k' v' = Ok lru2
    ∧ mkItem k v ∈ contents lru2
    ∧ Len lru2 = Len lru.
Proof.
  intros Hwf Hq [e Hk]%wf_present Hk' Hfull Htwo; [|done].
  destruct (Get_present lru k e Hwf Hk)
    as (v & lru1 & _ & Hget & Hc1 & Hwf1 & Hel1 & Hsz1 & _ & _ & Hev1).
  assert (Len lru1 = Len lru) as HL1 by (by rewrite !wf_Len, Hel1).
  assert (elem (state lru1) !! k' = None) as Hk1.
  { rewrite Hel1. by apply wf_absent. }
  destruct (Set_absent lru1 k' v' Hwf1) as (lru2 & Hset & Hc2 & _);
    [unfold undisturbed; by rewrite Hev1 | done |].
  rewrite bool_decide_true in Hc2 by (rewrite Hsz1, HL1; lia).
  exists v, lru1, lru2. split_and!; [done..| |].
  - rewrite Hc2, Hc1.
    destruct (filter (λ it0, key it0 ≠ k) (contents lru)) as [|it0 rest] eqn:Hf.
    + rewrite (Len_contents lru1), Hc1 in HL1. simpl in HL1. lia.
    + right. by left.
  - assert (∃ rest x, contents lru1 = rest ++ [x]) as (rest & x & Hrest).
    { destruct (last (contents lru1)) as [x|] eqn:Hlast.
      - apply last_Some in Hlast as [rest ->]. by exists rest, x.
      - apply last_None in Hlast. by rewrite Hc1 in Hlast. }
    rewrite <-HL1, !Len_contents, Hc2, Hrest, removelast_last, length_app.
    simpl. lia.
Qed.

Lemma All_loop_removing (ev : option (callback K V U)) es d fuel acc :
  wf d → (∀ cb, ev = Some cb → quiet cb) →
  GoList.elems (items d) = es → (length es ≤ fuel)%nat →
  ∃ d', All_loop fuel (removing ev id) (fst <$> head es) acc d
        = Ok (acc ++ pairs es.*2, d')
    ∧ GoList.elems (items d') = [] ∧ size d' = size d.
Proof.
  revert d fuel acc. induction es as [|[e it] es IH]; intros d fuel acc Hwf Hq Hes Hfuel.
  - exists d. simpl. rewrite app_nil_r. by destruct fuel.
  - destruct fuel as [|fuel]; simpl in Hfuel; [lia|]. simpl.
    unfold GoList.Next, GoList.Value. rewrite Hes. simpl.
    rewrite !decide_True by done. unfold removing, id in *.
    assert ((e, it) ∈ GoList.elems (items d)) as Hin by (rewrite Hes; by left).
    pose proof (consistent_elem_of _ _ _ Hwf Hin) as Hk. simpl in Hk.
    destruct (Remove_quiet {| state := d; evicted := ev |} (key it) e Hwf Hq Hk)
      as (v0 & lru' & _ & Hrem & Hes' & _ & Hwf' & Hsz' & _).
    rewrite Hrem. simpl in *.
    assert (GoList.elems (items (state lru')) = es) as Hes''.
    { rewrite Hes', Hes. unfold GoList.drop_elem.
      rewrite filter_cons_False by (simpl; tauto).
      apply drop_elem_id. destruct Hwf as (Hnd & _).
      rewrite Hes, fmap_cons in Hnd. by apply NoDup_cons in Hnd as [? _]. }
    destruct (IH (state lru') fuel (acc ++ [(key it, value it)]))
      as (d' & -> & Hd' & Hsz); [done | done | done | lia |].
    exists d'. rewrite <-app_assoc. split_and!; [done | done | congruence].
Qed.

(** X17.  The entry it is given may be removed by the consumer of [All]:
    the successor is read before the consumer is called, so, on a cache
    whose callback, if one is registered, leaves the cache alone, a
    traversal whose consumer removes each entry it is given visits every
    entry, most recently used first, and leaves the cache empty. *)
Theorem All_while_removing lru fuel :
  wf (state lru) → undisturbed lru → (length (contents lru) ≤ fuel)%nat →
  ∃ lru', All fuel lru (removing (evicted lru) id) []
          = Ok (pairs (contents lru), lru')
    ∧ contents lru' = [] ∧ Len lru' = 0
    ∧ size (state lru') = size (state lru).
Proof.
  intros Hwf Hq Hfuel. unfold All, GoList.Front.
  destruct (All_loop_removing (evicted lru) (GoList.elems (items (state lru)))
              (state lru) fuel []) as (d' & -> & Hd' & Hsz);
    [done | done | done | by rewrite <-(length_fmap snd) |].
  eexists. split; [done|]. unfold contents, Len, GoList.Len. simpl.
  by rewrite Hd'.
Qed.

(** X18.  The entry after the one it is given must not be removed by the
    consumer of [All]: on a cache whose callback, if one is registered,
    leaves the cache alone, the traversal goes on to the removed element,
    whose value is nil, and panics. *)
Theorem All_panics_when_next_removed lru fuel it1 it2 rest (target : K → K) :
  wf (state lru) → undisturbed lru →
  contents lru = it1 :: it2 :: rest → target (key it1) = key it2 →
  All (S (S fuel)) lru (removing (evicted lru) target) [] = Fail Panic.
Proof.
  intros Hwf Hq Hc Htarget. unfold All, GoList.Front, contents in *.
  destruct (GoList.elems (items (state lru))) as [|[e1 i1] [|[e2 i2] es]] eqn:Hes;
    simplify_eq/=.
  unfold GoList.Next, GoList.Value. rewrite Hes. simpl.
  rewrite !decide_True by done. simpl. unfold removing. rewrite Htarget.
  assert ((e2, it2) ∈ GoList.elems (items (state lru))) as Hin
    by (rewrite Hes; right; by left).
  pose proof (consistent_elem_of _ _ _ Hwf Hin) as Hk. simpl in Hk.
  destruct (Remove_quiet {| state := state lru; evicted := evicted lru |}
              (key it2) e2 Hwf Hq Hk)
    as (v0 & lru' & _ & Hrem & Hes' & _). rewrite Hrem. simpl in *.
  assert (GoList.lookup_elem e2 (GoList.elems (items (state lru'))) = None) as Hgone.
  { apply lookup_elem_None. rewrite Hes'. apply drop_elem_not_elem_of. }
  unfold GoList.Value. by rewrite Hgone.
Qed.

Lemma All_loop_sound {A} fuel (yield : consumer K V U A) cur acc d acc' d' :
  wf d → respects_yield yield →
  All_loop fuel yield cur acc d = Ok (acc', d') → extends d d'.
Proof.
  revert cur acc d. induction fuel as [|fuel IH]; intros [e|] acc d Hwf Hy; simpl;
    try done; try (intros [= _ <-]; by apply extends_refl).
  destruct (GoList.Value e (items d)) as [it|]; [|done].
  destruct (yield _ _ _ _) as [[[more acc1] d1]|] eqn:Hrun; [|done]. simpl.
  apply Hy in Hrun; [|done]. simpl in Hrun. destruct more.
  - intros Hloop. apply IH in Hloop; [by eapply extends_trans | by destruct Hrun | done].
  - by intros [= _ <-].
Qed.

Lemma Backward_loop_sound {A} fuel (yield : consumer K V U A) cur acc d acc' d' :
  wf d → respects_yield yield →
  Backward_loop fuel yield cur acc d = Ok (acc', d') → extends d d'.
Proof.
  revert cur acc d. induction fuel as [|fuel IH]; intros [e|] acc d Hwf Hy; simpl;
    try done; try (intros [= _ <-]; by apply extends_refl).
  destruct (GoList.Value e (items d)) as [it|]; [|done].
  destruct (yield _ _ _ _) as [[[more acc1] d1]|] eqn:Hrun; [|done]. simpl.
  apply Hy in Hrun; [|done]. simpl in Hrun. destruct more.
  - intros Hloop. apply IH in Hloop; [by eapply extends_trans | by destruct Hrun | done].
  - by intros [= _ <-].
Qed.
End more_properties.

(** * Further properties of the wrapper *)

Section more_mutex_properties.
Context {K V W : Type} `{Countable K} `{Zero K} `{Zero V}.
Import MutexLRU.
Implicit Types (m : t K V W) (l : LRU.t K V (outside W)) (k : K) (v : V).

Lemma with_user_id l : LRU.with_user l (LRU.user (LRU.state l)) = l.
Proof. by destruct l as [[] ?]. Qed.

Lemma exclusive_transparent {A} m
    (body : LRU.t K V (outside W) → result (A * LRU.t K V (outside W))) :
  unlocked (LRU.state (lru m)) →
  (∀ u, body (LRU.with_user (lru m) u)
        = (r ← body (lru m); Ok (r.1, LRU.with_user r.2 u))) →
  exclusive m body = (r ← body (lru m); Ok (r.1, {| lru := r.2 |})).
Proof.
  intros Hu Hbody. pose proof (Hbody (LRU.user (LRU.state (lru m)))) as Hid.
  rewrite with_user_id in Hid.
  unfold exclusive, on_mut, unlocked in *. rewrite Hu. simpl.
  match goal with |- context [body ?x] =>
    change x with (LRU.with_user (lru m)
                     {| mut := {| writer := true; readers := 0 |};
                        own := own (LRU.user (LRU.state (lru m))) |}) end.
  rewrite Hbody. destruct (body (lru m)) as [[a l]|]; [|done]. simpl in *.
  injection Hid as Hid. do 3 f_equal. rewrite Hid at 2.
  unfold LRU.with_user, LRU.with_state. simpl. do 2 f_equal.
  destruct (LRU.user (LRU.state (lru m))) as [mu ow]. simpl in *. by subst mu.
Qed.

Lemma shared_transparent {A} m
    (body : LRU.t K V (outside W) → result (A * LRU.t K V (outside W))) :
  unlocked (LRU.state (lru m)) →
  (∀ u, body (LRU.with_user (lru m) u)
        = (r ← body (lru m); Ok (r.1, LRU.with_user r.2 u))) →
  shared m body = (r ← body (lru m); Ok (r.1, {| lru := r.2 |})).
Proof.
  intros Hu Hbody. pose proof (Hbody (LRU.user (LRU.state (lru m)))) as Hid.
  rewrite with_user_id in Hid.
  unfold shared, on_mut, unlocked in *. rewrite Hu. simpl.
  match goal with |- context [body ?x] =>
    change x with (LRU.with_user (lru m)
                     {| mut := {| writer := false; readers := 1 |};
                        own := own (LRU.user (LRU.state (lru m))) |}) end.
  rewrite Hbody. destruct (body (lru m)) as [[a l]|]; [|done]. simpl in *.
  injection Hid as Hid. do 3 f_equal. rewrite Hid at 2.
  unfold LRU.with_user, LRU.with_state. simpl. do 2 f_equal.
  destruct (LRU.user (LRU.state (lru m))) as [mu ow]. simpl in *. by subst mu.
Qed.

(** X13.  On a cache without a callback, a method of the wrapper, called
    with the mutex unlocked, returns what the method of the cache returns
    and leaves the cache of the wrapper as that method leaves it, with the
    mutex unlocked again. *)
Theorem wrapper_transparent m fuel k v n :
  unlocked (LRU.state (lru m)) → LRU.evicted (lru m) = None →
  Set_ m k v = (l ← LRU.Set_ (lru m) k v; Ok (tt, {| lru := l |}))
  ∧ Get m k = (r ← LRU.Get (lru m) k; Ok (r.1, {| lru := r.2 |}))
  ∧ Pick m k = (r ← LRU.Pick (lru m) k; Ok (r.1, {| lru := r.2 |}))
  ∧ Remove m k = (r ← LRU.Remove (lru m) k; Ok (r.1, {| lru := r.2 |}))
  ∧ RemoveOldest m = (r ← LRU.RemoveOldest (lru m); Ok (r.1, {| lru := r.2 |}))
  ∧ Resize fuel m n = (r ← LRU.Resize fuel (lru m) n; Ok (r.1, {| lru := r.2 |}))
  ∧ Len m = Ok (LRU.Len (lru m), m)
  ∧ Clear fuel m = (l ← LRU.Clear fuel (lru m); Ok (tt, {| lru := l |})).
Proof.
  intros Hu Hev. split_and!.
  - unfold Set_. rewrite exclusive_transparent; [|done|].
    + by destruct (LRU.Set_ (lru m) k v).
    + intros u. rewrite Set_with_user by done. by destruct (LRU.Set_ (lru m) k v).
  - unfold Get. apply exclusive_transparent; [done|]. intros u. apply Get_with_user.
  - unfold Pick. apply shared_transparent; [done|]. intros u. apply Pick_with_user.
  - unfold Remove. apply exclusive_transparent; [done|]. intros u.
    by apply Remove_with_user.
  - unfold RemoveOldest. apply exclusive_transparent; [done|]. intros u.
    by apply RemoveOldest_with_user.
  - unfold Resize. apply exclusive_transparent; [done|]. intros u.
    unfold LRU.Resize.
    match goal with |- _ = LRU.Resize_loop _ _ _ ?l ≫= _ =>
      exact (Resize_loop_with_user fuel n 0 l u Hev) end.
  - unfold Len. rewrite shared_transparent; [by destruct m | done | done].
  - unfold Clear. rewrite exclusive_transparent; [|done|].
    + by destruct (LRU.Clear fuel (lru m)).
    + intros u. rewrite Clear_with_user by done. by destruct (LRU.Clear fuel (lru m)).
Qed.

(** X14.  [All] and [Backward] of the wrapper give a consumer that touches
    nothing the entries that [All] and [Backward] of the cache give it,
    until it answers [false], and leave the wrapper as it is, with the mutex
    unlocked. *)
Theorem wrapper_traversal {A} (f : K → V → A → bool * A) m fuel acc :
  unlocked (LRU.state (lru m)) → LRU.wf (LRU.state (lru m)) →
  (length (LRU.contents (lru m)) ≤ fuel)%nat →
  All fuel m (LRU.pure_consumer f) acc
  = Ok (LRU.visit f acc (LRU.pairs (LRU.contents (lru m))), m)
  ∧ Backward fuel m (LRU.pure_consumer f) acc
    = Ok (LRU.visit f acc (LRU.pairs (reverse (LRU.contents (lru m)))), m).
Proof.
  destruct m as [[[el it sz tr [mu ow]] ev]]. unfold unlocked, LRU.contents. simpl.
  intros -> (Hnd & _) Hfuel. simpl in Hnd. rewrite length_fmap in Hfuel.
  set (d1 := {| LRU.elem := el; LRU.items := it; LRU.size := sz; LRU.trace := tr;
                LRU.user := {| mut := {| writer := true; readers := 0 |};
                               own := ow |} |}).
  assert (∀ k v a, handoff_yield (LRU.pure_consumer f) k v a d1
                   = let '(more, a') := f k v a in Ok (more, a', d1)) as Hy.
  { intros k v a. unfold handoff_yield, LRU.pure_consumer, on_mut. simpl.
    by destruct (f k v a) as [more a']. }
  split.
  - unfold All, exclusive, on_mut, LRU.All, GoList.Front. simpl. fold d1.
    rewrite (All_loop_visit f _ d1 [] (GoList.elems it)); done.
  - unfold Backward, exclusive, on_mut, LRU.Backward, GoList.Back. simpl. fold d1.
    rewrite <-head_reverse.
    rewrite (Backward_loop_visit f _ d1 [] (reverse (GoList.elems it))); simpl.
    + by rewrite fmap_reverse.
    + done.
    + done.
    + by rewrite fmap_reverse, reverse_Permutation.
    + by rewrite length_reverse.
Qed.
Lemma on_mut_extends (f : RWMutex → result RWMutex)
    (d d' : LRU.data K V (outside W)) :
  LRU.wf d → on_mut f d = Ok d' → LRU.extends d d'.
Proof.
  intros Hwf. unfold on_mut. destruct (f _) as [mu|]; [|done]. simpl.
  intros [= <-]. split; [done|]. exists []. simpl. by rewrite app_nil_r.
Qed.

Lemma handoff_respects (cb : LRU.callback K V (outside W)) :
  LRU.respects cb → LRU.respects (handoff cb).
Proof.
  intros Hcb k v d d' Hwf. unfold handoff.
  destruct (on_mut Unlock d) as [d1|] eqn:H1'; [|done]. simpl.
  destruct (cb k v d1) as [d2|] eqn:H2'; [|done]. simpl. intros H3'.
  apply on_mut_extends in H1'; [|done].
  apply Hcb in H2'; [|by destruct H1'].
  apply on_mut_extends in H3'; [|by destruct H2'].
  eapply extends_trans; [|exact H3']. by eapply extends_trans.
Qed.

Lemma handoff_yield_respects {A} (yield : LRU.consumer K V (outside W) A) :
  LRU.respects_yield yield → LRU.respects_yield (handoff_yield yield).
Proof.
  intros Hy k v acc d r Hwf. unfold handoff_yield.
  destruct (on_mut Unlock d) as [d1|] eqn:H1'; [|done]. simpl.
  destruct (yield k v acc d1) as [[[more acc'] d2]|] eqn:H2'; [|done]. simpl.
  destruct (on_mut Lock d2) as [d3|] eqn:H3'; [|done]. simpl. intros [= <-].
  apply on_mut_extends in H1'; [|done].
  apply Hy in H2'; [|by destruct H1']. simpl in *.
  apply on_mut_extends in H3'; [|by destruct H2'].
  eapply extends_trans; [|exact H3']. by eapply extends_trans.
Qed.

Lemma exclusive_sound {A} m
    (body : LRU.t K V (outside W) → result (A * LRU.t K V (outside W))) r :
  LRU.wf (LRU.state (lru m)) →
  (∀ l r', LRU.wf (LRU.state l) → LRU.evicted l = LRU.evicted (lru m) →
     body l = Ok r' →
     LRU.extends (LRU.state l) (LRU.state r'.2) ∧ LRU.respectful r'.2) →
  exclusive m body = Ok r →
  LRU.extends (LRU.state (lru m)) (LRU.state (lru r.2)) ∧ LRU.respectful (lru r.2).
Proof.
  intros Hwf Hbody. unfold exclusive.
  destruct (on_mut Lock _) as [d1|] eqn:H1'; [|done]. simpl.
  destruct (body _) as [[a l]|] eqn:H2'; [|done]. simpl.
  destruct (on_mut Unlock _) as [d3|] eqn:H3'; [|done]. simpl. intros [= <-].
  apply on_mut_extends in H1'; [|done].
  apply Hbody in H2' as [H2' Hres]; [|by destruct H1' | done]. simpl in *.
  apply on_mut_extends in H3'; [|by destruct H2'].
  split; [|done]. eapply extends_trans; [|exact H3']. by eapply extends_trans.
Qed.

Lemma shared_sound {A} m
    (body : LRU.t K V (outside W) → result (A * LRU.t K V (outside W))) r :
  LRU.wf (LRU.state (lru m)) →
  (∀ l r', LRU.wf (LRU.state l) → LRU.evicted l = LRU.evicted (lru m) →
     body l = Ok r' →
     LRU.extends (LRU.state l) (LRU.state r'.2) ∧ LRU.respectful r'.2) →
  shared m body = Ok r →
  LRU.extends (LRU.state (lru m)) (LRU.state (lru r.2)) ∧ LRU.respectful (lru r.2).
Proof.
  intros Hwf Hbody. unfold shared.
  destruct (on_mut RLock _) as [d1|] eqn:H1'; [|done]. simpl.
  destruct (body _) as [[a l]|] eqn:H2'; [|done]. simpl.
  destruct (on_mut RUnlock _) as [d3|] eqn:H3'; [|done]. simpl. intros [= <-].
  apply on_mut_extends in H1'; [|done].
  apply Hbody in H2' as [H2' Hres]; [|by destruct H1' | done]. simpl in *.
  apply on_mut_extends in H3'; [|by destruct H2'].
  split; [|done]. eapply extends_trans; [|exact H3']. by eapply extends_trans.
Qed.

Lemma run_sound {A} fuel (c : call K V W A) m m' :
  LRU.wf (LRU.state (lru m)) → LRU.respectful (lru m) → civil c →
  run fuel c m = Ok m' →
  LRU.extends (LRU.state (lru m)) (LRU.state (lru m')) ∧ LRU.respectful (lru m').
Proof.
  intros Hwf Hres Hc.
  assert (∀ l : LRU.t K V (outside W),
            LRU.evicted l = LRU.evicted (lru m) → LRU.respectful l) as Hres'
    by (intros l Hl; unfold LRU.respectful; by rewrite Hl).
  assert (∀ l l' : LRU.t K V (outside W),
            LRU.evicted l = LRU.evicted (lru m) →
            LRU.extends (LRU.state l) (LRU.state l') ∧ LRU.evicted l' = LRU.evicted l →
            LRU.extends (LRU.state l) (LRU.state l') ∧ LRU.respectful l') as Hstep.
  { intros l l' Hl [Hext Hev]. split; [done|]. apply Hres'. congruence. }
  destruct c as [cb|k v|k|k|k| |n| | |yield acc|yield acc]; cbn [run];
    match goal with |- context [?call ≫= _] =>
      destruct call as [[a m1]|] eqn:Hrun; [|done] end;
    simpl; intros [= <-];
    [apply (exclusive_sound m _ (a, m1)) in Hrun
    |apply (exclusive_sound m _ (a, m1)) in Hrun
    |apply (exclusive_sound m _ (a, m1)) in Hrun
    |apply (shared_sound m _ (a, m1)) in Hrun
    |apply (exclusive_sound m _ (a, m1)) in Hrun
    |apply (exclusive_sound m _ (a, m1)) in Hrun
    |apply (exclusive_sound m _ (a, m1)) in Hrun
    |apply (shared_sound m _ (a, m1)) in Hrun
    |apply (exclusive_sound m _ (a, m1)) in Hrun
    |apply (exclusive_sound m _ (a, m1)) in Hrun
    |apply (exclusive_sound m _ (a, m1)) in Hrun];
    try done; intros l r' Hwfl Hevl Hbody.
  - injection Hbody as <-. simpl. split; [by apply extends_refl|].
    intros c0 [= <-]. by apply handoff_respects.
  - destruct (LRU.Set_ l k v) as [l'|] eqn:Hset; [|done]. injection Hbody as <-.
    apply Hstep; [done|]. apply (Set_sound l k v); [done | by apply Hres' | done].
  - destruct r' as [r0 l']. apply Hstep; [done|].
    apply (Get_sound l k r0); [done | by apply Hres' | done].
  - destruct r' as [r0 l']. apply Hstep; [done|]. by apply (Pick_sound l k r0).
  - destruct r' as [r0 l']. apply Hstep; [done|].
    apply (Remove_sound l k r0); [done | by apply Hres' | done].
  - destruct r' as [r0 l']. apply Hstep; [done|].
    apply (RemoveOldest_sound l r0); [done | by apply Hres' | done].
  - destruct r' as [r0 l']. apply Hstep; [done|].
    apply (Resize_sound fuel l n r0); [done | by apply Hres' | done].
  - injection Hbody as <-. simpl. split; [by apply extends_refl | by apply Hres'].
  - destruct (LRU.Clear fuel l) as [l'|] eqn:Hclear; [|done]. injection Hbody as <-.
    apply Hstep; [done|]. apply (Clear_sound fuel l); [done | by apply Hres' | done].
  - unfold LRU.All in Hbody.
    destruct (LRU.All_loop _ _ _ _ _) as [[acc' d']|] eqn:Hloop; [|done].
    injection Hbody as <-. simpl. split; [|by apply Hres'].
    apply All_loop_sound in Hloop; [done | done | by apply handoff_yield_respects].
  - unfold LRU.Backward in Hbody.
    destruct (LRU.Backward_loop _ _ _ _ _) as [[acc' d']|] eqn:Hloop; [|done].
    injection Hbody as <-. simpl. split; [|by apply Hres'].
    apply Backward_loop_sound in Hloop; [done | done | by apply handoff_yield_respects].
Qed.
(** X16.  The wrapper keeps the cache well formed: whatever method is
    called, with a callback and a consumer that act on the cache through its
    methods only, possibly from inside the call, the index and the list of
    the cache still describe the same entries when the call returns, and
    every callback call made meanwhile was for an entry already taken out. *)
Theorem wrapper_keeps_cache_consistent {A} fuel (c : call K V W A) m m' :
  LRU.wf (LRU.state (lru m)) → LRU.respectful (lru m) → civil c →
  run fuel c m = Ok m' →
  LRU.extends (LRU.state (lru m)) (LRU.state (lru m')) ∧ LRU.respectful (lru m').
Proof. apply run_sound. Qed.
End more_mutex_properties.

Section examples.
Import LRU Examples.

Lemma record_quiet : quiet record.
Proof. intros k v d. by eexists. Qed.

Lemma reinsert_respects depth : respects (reinsert depth).
Proof.
  induction depth as [|depth IH]; intros k v d d' Hwf; simpl;
    (case_bool_decide; [|intros [= <-]; by apply extends_refl]); [done|].
  destruct (Set_ _ _ _) as [lru|] eqn:Hset; [|done]. simpl. intros [= <-].
  apply Set_sound in Hset as [Hext _]; [done..|].
  by intros cb [= <-].
Qed.

Lemma reachable_run_sets {K V U} `{Countable K} `{Zero K} `{Zero V}
    (lru lru' : t K V U) kvs :
  reachable lru → run_sets lru kvs = Ok lru' → reachable lru'.
Proof.
  revert lru'. induction kvs as [|[k v] kvs IH] using rev_ind; intros lru' Hr.
  - by intros [= <-].
  - rewrite run_sets_snoc. destruct (run_sets lru kvs) as [lru1|]; [|done].
    simpl. intros Hset. by apply (reachable_step lru1 O (OpSet k v)); [apply IH|].
Qed.

(** A call that returns, returns what [built] takes out of it. *)
Lemma built_Ok (r : result cache) :
  match r with Ok _ => True | Fail _ => False end → r = Ok (built r).
Proof. by destruct r. Qed.

Lemma result_Ok {A} (P : A → Prop) (r : result A) :
  match r with Ok a => P a | Fail _ => False end → ∃ a, r = Ok a ∧ P a.
Proof. destruct r as [a|]; [|done]. intros HP. by exists a. Qed.

Lemma Clear_more_fuel {K V U} `{Countable K} `{Zero K} `{Zero V}
    fuel n (lru lru' : t K V U) :
  Clear fuel lru = Ok lru' → Clear (fuel + n) lru = Ok lru'.
Proof.
  revert lru. induction fuel as [|fuel IH]; intros lru; simpl.
  - case_bool_decide as HL; [done|]. intros [= <-].
    destruct n; simpl; by rewrite bool_decide_false.
  - case_bool_decide; [|done].
    destruct (RemoveOldest lru) as [[r lru1]|]; [|done]. simpl. apply IH.
Qed.

Lemma logged_abc_undisturbed : undisturbed logged_abc.
Proof. intros cb [= <-]. apply record_quiet. Qed.

Lemma plain_abc_reachable : reachable plain_abc.
Proof.
  apply (reachable_run_sets (New 3 []) _ abc); [constructor|].
  apply built_Ok. by vm_compute.
Qed.

Lemma reinserting_abcd_reachable : reachable reinserting_abcd.
Proof.
  apply (reachable_step reinserting_abc O (OpSet "d" 3));
    [|apply built_Ok; by vm_compute].
  apply (reachable_run_sets (OnEvicted (New 3 []) (Some (reinsert 2))) _ abc);
    [|apply built_Ok; by vm_compute].
  apply reachable_OnEvicted; [constructor|].
  intros c [= <-]. apply (reinsert_respects 2).
Qed.

(** C1.  [Resize(0)] on a cache of three entries evicts all three, oldest
    first, calling the callback for each, and returns 3; [Resize(-1)]
    never returns. *)
Theorem Resize_nonpositive_evicts :
  (∃ lru', Resize 3 logged_abc 0 = Ok (3, lru')
     ∧ contents lru' = []
     ∧ calls (state lru') = abc
     ∧ user (state lru') = abc)
  ∧ (∀ fuel, Resize fuel logged_abc (-1) = Fail OutOfFuel).
Proof.
  split.
  - destruct (result_Ok (λ r, r.1 = 3 ∧ contents r.2 = [] ∧ calls (state r.2) = abc
                               ∧ user (state r.2) = abc) (Resize 3 logged_abc 0))
      as ([n lru'] & Hrun & Hn & Hrest); [by vm_compute|].
    simpl in Hn. subst n. by exists lru'.
  - intros fuel. apply Resize_loop_negative; [compute_done | | done].
    intros cb [= <-]. apply record_quiet.
Qed.

(** The claim C3 fails for a callback that puts an entry back: with "a",
    "b" and "c" in a cache of capacity 3, [Set("d", 3)] evicts "a", the
    callback sets "a" again, which evicts "b", and "a" ends up in front of
    "d". *)
Lemma recency_counterexample :
  wf (state reinserting_abc)
  ∧ Set_ reinserting_abc "d" 3 = Ok reinserting_abcd
  ∧ All 3 reinserting_abcd collect []
    = Ok ([("a", 999); ("d", 3); ("c", 2)], reinserting_abcd)
  ∧ ¬ ∃ fuel rest,
        All fuel reinserting_abcd collect [] = Ok (("d", 3) :: rest, reinserting_abcd).
Proof.
  assert (wf (state reinserting_abcd)) as Hwf by compute_done.
  assert (pairs (contents reinserting_abcd) = [("a", 999); ("d", 3); ("c", 2)])
    as Hc by (by vm_compute).
  split_and!; [compute_done | apply built_Ok; by vm_compute | |].
  - rewrite All_collect; [by rewrite Hc | done | by vm_compute].
  - intros (fuel & rest & Hall).
    destruct (decide (3 ≤ fuel)%nat) as [Hfuel | Hfuel].
    + rewrite All_collect, Hc in Hall; [done | done |].
      by replace (length (contents reinserting_abcd)) with 3%nat by (by vm_compute).
    + assert (All fuel reinserting_abcd collect [] = Fail OutOfFuel) as Hout.
      { destruct fuel as [|[|[|fuel]]]; [by vm_compute.. | lia]. }
      by rewrite Hout in Hall.
Qed.

(** The claim C5 fails for the same callback: [Clear] on a cache that
    holds only "a" with value 0 calls the callback twice, for ("a", 0) and
    for the ("a", 999) it put back. *)
Lemma Clear_counterexample :
  wf (state reinserting_a)
  ∧ pairs (contents reinserting_a) = [("a", 0)]
  ∧ (∃ lru', Clear 2 reinserting_a = Ok lru'
       ∧ calls (state lru') = [("a", 0); ("a", 999)])
  ∧ ¬ ∃ fuel lru',
        Clear fuel reinserting_a = Ok lru'
        ∧ Len lru' = 0
        ∧ calls (state lru')
          = calls (state reinserting_a) ++ pairs (reverse (contents reinserting_a)).
Proof.
  destruct (result_Ok (λ lru', calls (state lru') = [("a", 0); ("a", 999)])
              (Clear 2 reinserting_a)) as (lru2 & Hrun2 & Hcalls2); [by vm_compute|].
  split_and!; [compute_done | by vm_compute | by exists lru2 |].
  intros (fuel & lru' & Hrun & _ & Hcalls).
  destruct (decide (2 ≤ fuel)%nat) as [Hfuel | Hfuel].
  - apply (Clear_more_fuel 2 (fuel - 2)) in Hrun2.
    replace (2 + (fuel - 2))%nat with fuel in Hrun2 by lia.
    rewrite Hrun2 in Hrun. injection Hrun as <-.
    rewrite Hcalls2 in Hcalls. vm_compute in Hcalls. discriminate.
  - assert (Clear fuel reinserting_a = Fail OutOfFuel) as Hout.
    { destruct fuel as [|[|fuel]]; [by vm_compute.. | lia]. }
    by rewrite Hout in Hrun.
Qed.
(** *** The tests of the package *)

Lemma TestOnEvicted :
  match run_sets (OnEvicted (New 3 []) (Some (expect "a"))) abcd with
  | Ok lru => pairs (contents lru) = [("d", 3); ("c", 2); ("b", 1)]
  | Fail _ => False
  end.
Proof. by vm_compute. Qed.

Lemma TestGet :
  match run_ops O (OnEvicted (New 3 []) (Some (expect "b")))
          [OpSet "a" 1; OpSet "b" 2; OpSet "c" 3; OpGet "a"; OpSet "c" 33;
           OpSet "d" 4] with
  | Ok lru => pairs (contents lru) = [("d", 4); ("c", 33); ("a", 1)]
  | Fail _ => False
  end.
Proof. by vm_compute. Qed.

Lemma TestPick :
  match run_ops O (OnEvicted (New 3 []) (Some (expect "a")))
          [OpSet "a" 1; OpSet "b" 2; OpSet "c" 3; OpPick "a"; OpSet "d" 4] with
  | Ok lru => pairs (contents lru) = [("d", 4); ("c", 3); ("b", 2)]
  | Fail _ => False
  end.
Proof. by vm_compute. Qed.

Lemma TestRemove :
  match run_ops O (New 3 [] : cache) [OpSet "a" 1; OpSet "b" 2; OpRemove "a"] with
  | Ok lru =>
      Len lru = 1
      ∧ match Get lru "b" with Ok (b, ok, _) => b = 2 ∧ ok = true | Fail _ => False end
  | Fail _ => False
  end.
Proof. by vm_compute. Qed.

Lemma TestRemoveOldest :
  match run_ops O (New 3 [] : cache) [OpSet "a" 1; OpSet "b" 2] with
  | Ok lru =>
      match RemoveOldest lru with
      | Ok (k, v, ok, _) => k = "a" ∧ v = 1 ∧ ok = true
      | Fail _ => False
      end
  | Fail _ => False
  end.
Proof. by vm_compute. Qed.

Lemma TestResize :
  match one_to_ten (λ i, i * 10 + i) with
  | Ok lru =>
      match Resize 7 lru 3 with
      | Ok (n, lru') => n = 7 ∧ pairs (contents lru') = [(10, 110); (9, 99); (8, 88)]
      | Fail _ => False
      end
  | Fail _ => False
  end.
Proof. by vm_compute. Qed.

Lemma TestClear :
  match run_ops 3 (New 3 [] : cache)
          [OpSet "a" 1; OpSet "b" 2; OpSet "c" 3; OpSet "d" 4; OpClear] with
  | Ok lru =>
      Len lru = 0
      ∧ match Get lru "c" with Ok (c, ok, _) => c = 0 ∧ ok = false | Fail _ => False end
  | Fail _ => False
  end.
Proof. by vm_compute. Qed.

Lemma TestAll_TestBackward :
  match one_to_ten (λ i, i) with
  | Ok lru =>
      match All 10 lru collect [], Backward 10 lru collect [] with
      | Ok (down, _), Ok (up, _) =>
          down = (λ i, (i, i)) <$> [10; 9; 8; 7; 6; 5; 4; 3; 2; 1]
          ∧ up = (λ i, (i, i)) <$> [1; 2; 3; 4; 5; 6; 7; 8; 9; 10]
      | _, _ => False
      end
  | Fail _ => False
  end.
Proof. by vm_compute. Qed.

(** *** The wrapper *)

Lemma idle_NewWithMutex {K V W} `{Countable K} `{Zero K} `{Zero V} n (w : W) :
  MutexLRU.idle (MutexLRU.NewWithMutex (K := K) (V := V) n w).
Proof. split; [done|]. by intros c [=]. Qed.

Lemma reinsert_locked_reentrant depth : MutexLRU.reentrant (reinsert_locked depth).
Proof.
  induction depth as [|depth IH]; intros k v d Hu; simpl;
    (case_bool_decide; [by left|]); (case_bool_decide; [|done]); [by right|].
  apply (lock_safe_bind (λ r, MutexLRU.idle r.2)).
  - apply Set_safe. split; [done|]. intros c [= <-]. by eexists.
  - intros [[] m] [Hm _]. exact Hm.
Qed.

Lemma idle_locked_reinserting : MutexLRU.idle locked_reinserting.
Proof.
  unfold locked_reinserting.
  pose proof (OnEvicted_safe (MutexLRU.NewWithMutex 3 0) (reinsert_locked 2)
                (idle_NewWithMutex 3 0) (reinsert_locked_reentrant 2)) as Hrun.
  destruct (MutexLRU.OnEvicted _ _) as [[[] m]|]; [exact Hrun | apply idle_NewWithMutex].
Qed.

Lemma idle_run_locked_sets (m m' : mcache) kvs :
  MutexLRU.idle m → run_locked_sets m kvs = Ok m' → MutexLRU.idle m'.
Proof.
  revert m'. induction kvs as [|[k v] kvs IH] using rev_ind; intros m' Hm.
  - by intros [= <-].
  - unfold run_locked_sets in *. rewrite foldl_snoc.
    destruct (foldl _ _ kvs) as [m1|]; [|done]. simpl.
    pose proof (Set_safe m1 k v (IH m1 Hm eq_refl)) as Hrun.
    destruct (MutexLRU.Set_ m1 k v) as [[[] m2]|]; [|done].
    simpl in *. by intros [= <-].
Qed.

Lemma idle_locked_abc : MutexLRU.idle locked_abc.
Proof.
  unfold locked_abc.
  destruct (run_locked_sets locked_reinserting abc) as [m|] eqn:Hrun.
  - exact (idle_run_locked_sets locked_reinserting m abc
             idle_locked_reinserting Hrun).
  - apply idle_NewWithMutex.
Qed.

(** [TestMutexOnEvictedSet] passes: the four [Set] calls return, the
    callback has seen the values 0 and 1, "a" is back in the cache with 999,
    and the mutex is unlocked.  With the callback registered without the
    closure of [OnEvicted], the fourth [Set] deadlocks. *)
Lemma TestMutexOnEvictedSet :
  match run_locked_sets locked_reinserting abcd with
  | Ok m =>
      pairs (contents (MutexLRU.lru m)) = [("a", 999); ("d", 3); ("c", 2)]
      ∧ calls (state (MutexLRU.lru m)) = [("a", 0); ("b", 1)]
      ∧ MutexLRU.own (user (state (MutexLRU.lru m))) = 2
      ∧ MutexLRU.unlocked (state (MutexLRU.lru m))
  | Fail _ => False
  end
  ∧ run_locked_sets locked_without_handoff abcd = Fail Deadlock.
Proof. split; by vm_compute. Qed.
End examples.

Section witnesses.
Import LRU Examples.

Lemma Pick_like_Get_witness :
  ∃ v found, Pick plain_abc "b" = Ok (v, found, plain_abc)
    ∧ ∃ lru', Get plain_abc "b" = Ok (v, found, lru').
Proof. apply (Pick_like_Get plain_abc "b"). compute_done. Defined.

Lemma Set_existing_witness :
  ∃ lru', Set_ logged_abc "a" 7 = Ok lru'
    ∧ contents lru' = mkItem "a" 7 :: filter (λ it, key it ≠ "a") (contents logged_abc)
    ∧ (∀ it, key it ≠ "a" → it ∈ contents lru' ↔ it ∈ contents logged_abc)
    ∧ Len lru' = Len logged_abc
    ∧ trace (state lru') = trace (state logged_abc)
    ∧ user (state lru') = user (state logged_abc)
    ∧ size (state lru') = size (state logged_abc)
    ∧ evicted lru' = evicted logged_abc.
Proof. apply (Set_existing logged_abc "a" 7); compute_done. Defined.

Lemma Remove_absent_RemoveOldest_empty_witness :
  Remove plain_abc "z" = Ok (zero, false, plain_abc)
  ∧ RemoveOldest (New 3 [] : cache) = Ok (zero, zero, false, New 3 []).
Proof.
  split.
  - destruct (Remove_absent_RemoveOldest_empty plain_abc "z") as [Hr _];
      [compute_done|]. apply Hr. compute_done.
  - destruct (Remove_absent_RemoveOldest_empty (New 3 [] : cache) "z") as [_ Hr];
      [compute_done|]. by apply Hr.
Defined.

Lemma Set_capacity_witness :
  ∃ lru, run_sets (New 3 [] : cache) (abc ++ [("d", 3)]) = Ok lru
    ∧ Len lru = 3
    ∧ ∀ k v, k ∉ key <$> contents lru →
        ∃ lru', Set_ lru k v = Ok lru'
          ∧ contents lru' = mkItem k v :: removelast (contents lru)
          ∧ Len lru' = 3.
Proof.
  destruct (Set_capacity (U := list (string * Z)) 3 [] (abc ++ [("d", 3)])) as (lru & Hrun & _ & Hlen & Hset);
    [lia|].
  assert (Len lru = 3) as Hfull by (rewrite Hlen; by vm_compute).
  exists lru. split_and!; [done..|]. intros k v Hk.
  destruct (Hset k v Hk) as (lru' & Hrun' & Hc & Hlen').
  rewrite bool_decide_true in Hc by done.
  exists lru'. split_and!; [done..|lia].
Defined.

Lemma recency_witness :
  (∃ lru' rest, Set_ logged_abc "d" 3 = Ok lru'
     ∧ ∀ fuel, (length (contents lru') ≤ fuel)%nat →
         All fuel lru' collect [] = Ok (("d", 3) :: rest, lru'))
  ∧ (∀ v' lru', Get logged_abc "a" = Ok (v', true, lru') →
     ∃ rest, ∀ fuel, (length (contents lru') ≤ fuel)%nat →
         All fuel lru' collect [] = Ok (("a", v') :: rest, lru')).
Proof.
  split.
  - destruct (recency logged_abc "d" 3) as [Hset _]; [compute_done|].
    apply Hset, logged_abc_undisturbed.
  - destruct (recency logged_abc "a" 0) as [_ Hget]; [compute_done|].
    exact Hget.
Defined.

Lemma index_list_bijection_witness :
  let m := elem (state plain_abc) in
  let es := GoList.elems (items (state plain_abc)) in
  (∀ k e, m !! k = Some e →
     ∃ i v, es !! i = Some (e, mkItem k v)
       ∧ ∀ j x, es !! j = Some x → x.1 = e ∨ key x.2 = k → j = i)
  ∧ (∀ i x, es !! i = Some x → m !! key x.2 = Some x.1)
  ∧ base.size m = length es
  ∧ Len plain_abc = Z.of_nat (base.size m).
Proof. apply (index_list_bijection plain_abc), plain_abc_reachable. Defined.

Lemma Clear_notifies_witness :
  ∃ lru', Clear 3 logged_abc = Ok lru'
    ∧ Len lru' = 0
    ∧ (is_Some (evicted logged_abc) →
       calls (state lru')
       = calls (state logged_abc) ++ pairs (reverse (contents logged_abc))).
Proof.
  apply (Clear_notifies logged_abc 3);
    [compute_done | apply logged_abc_undisturbed | by vm_compute].
Defined.

Lemma callback_after_detach_witness :
  Forall (λ ev, detached ev
            ∧ ∀ lru0 : cache, elem (state lru0) = ev_elem ev →
                      items (state lru0) = ev_items ev →
                Get lru0 (ev_key ev) = Ok (zero, false, lru0)
                ∧ Pick lru0 (ev_key ev) = Ok (zero, false, lru0)
                ∧ Remove lru0 (ev_key ev) = Ok (zero, false, lru0))
         (trace (state reinserting_abcd)).
Proof. apply (callback_after_detach reinserting_abcd), reinserting_abcd_reachable. Defined.
Lemma handoff_discipline_witness :
  MutexLRU.idle locked_abc
  ∧ lock_safe MutexLRU.idle (MutexLRU.run O (MutexLRU.CallSet unit "d" 3) locked_abc).
Proof.
  split; [apply idle_locked_abc|].
  destruct (handoff_discipline (A := unit) O (MutexLRU.CallSet unit "d" 3) locked_abc)
    as [Hsafe _]; [apply idle_locked_abc | exact I | exact Hsafe].
Defined.
End witnesses.

Section more_examples.
Import LRU Examples.

Lemma reinsert_locked_respects depth : respects (reinsert_locked depth).
Proof.
  induction depth as [|depth IH]; intros k v d d' Hwf; simpl;
    (case_bool_decide; [done|]);
    (case_bool_decide; [|intros [= <-]; split; [done|]; exists []; simpl;
                         by rewrite app_nil_r]); [done|].
  destruct (MutexLRU.Set_ _ _ _) as [[[] m]|] eqn:Hset; [|done]. simpl.
  intros [= <-].
  match type of Hset with MutexLRU.Set_ ?m0 _ _ = _ =>
    destruct (run_sound (A := unit) O (MutexLRU.CallSet unit "a" 999) m0 m)
      as [Hext _] end;
    [exact Hwf | | exact I | cbn [MutexLRU.run]; by rewrite Hset |].
  - intros c [= <-]. by apply handoff_respects.
  - by eapply extends_same_trace; [|exact Hext].
Qed.

Lemma locked_reinserting_sound :
  wf (state (MutexLRU.lru locked_reinserting))
  ∧ respectful (MutexLRU.lru locked_reinserting).
Proof.
  split; [compute_done|]. unfold locked_reinserting.
  destruct (MutexLRU.OnEvicted _ _) as [[[] m]|] eqn:Hrun; simpl; [|by intros c [=]].
  destruct (run_sound (A := unit) O (MutexLRU.CallOnEvicted unit (reinsert_locked 2))
              (MutexLRU.NewWithMutex 3 0) m) as [_ Hres];
    [apply consistent_New | by intros c [=] | apply reinsert_locked_respects
    | cbn [MutexLRU.run]; by rewrite Hrun | done].
Qed.

Lemma run_locked_sets_sound (m m' : mcache) kvs :
  wf (state (MutexLRU.lru m)) → respectful (MutexLRU.lru m) →
  run_locked_sets m kvs = Ok m' →
  wf (state (MutexLRU.lru m')) ∧ respectful (MutexLRU.lru m').
Proof.
  intros Hwf Hres. revert m'.
  induction kvs as [|[k v] kvs IH] using rev_ind; intros m'.
  - by intros [= <-].
  - unfold run_locked_sets in *. rewrite foldl_snoc.
    destruct (foldl _ _ kvs) as [m1|]; [|done]. simpl.
    destruct (IH m1 eq_refl) as [Hwf1 Hres1].
    destruct (MutexLRU.Set_ m1 k v) as [[[] m2]|] eqn:Hset; [|done]. simpl.
    intros [= <-].
    destruct (run_sound (A := unit) O (MutexLRU.CallSet unit k v) m1 m2)
      as [[Hwf2 _] Hres2]; [done | done | exact I | cbn [MutexLRU.run]; by rewrite Hset |].
    done.
Qed.

Lemma locked_abc_respectful : respectful (MutexLRU.lru locked_abc).
Proof.
  unfold locked_abc.
  destruct (run_locked_sets locked_reinserting abc) as [m|] eqn:Hrun;
    [|by intros c [=]].
  destruct locked_reinserting_sound as [Hwf Hres].
  by destruct (run_locked_sets_sound locked_reinserting m abc Hwf Hres Hrun).
Qed.

Lemma result_is_Ok {A} (r : result A) :
  match r with Ok _ => True | Fail _ => False end → ∃ a, r = Ok a.
Proof. destruct r as [a|]; [by exists a | done]. Qed.
End more_examples.

Section more_witnesses.
Import LRU Examples.


Lemma RemoveOldest_existing_witness :
  ∃ lru', RemoveOldest logged_abc = Ok ("a", 0, true, lru')
    ∧ contents lru' = removelast (contents logged_abc)
    ∧ Len lru' = Len logged_abc - 1
    ∧ calls (state lru')
      = calls (state logged_abc) ++ match evicted logged_abc with
                                    | Some _ => [("a", 0)]
                                    | None => []
                                    end.
Proof.
  apply (RemoveOldest_existing logged_abc (mkItem "a" 0));
    [compute_done | apply logged_abc_undisturbed | by vm_compute].
Defined.

Lemma Resize_evicts_oldest_witness :
  ∃ lru', Resize 2 logged_abc 1 = Ok (Z.max 0 (Len logged_abc - 1), lru')
    ∧ contents lru' = take (Z.to_nat 1) (contents logged_abc)
    ∧ size (state lru') = 1
    ∧ calls (state lru')
      = calls (state logged_abc)
        ++ match evicted logged_abc with
           | Some _ => pairs (reverse (drop (Z.to_nat 1) (contents logged_abc)))
           | None => []
           end.
Proof.
  apply (Resize_evicts_oldest logged_abc 1 2);
    [compute_done | apply logged_abc_undisturbed | lia | by vm_compute].
Defined.

Lemma Resize_negative_never_returns_witness :
  ∃ f, Resize 5 plain_abc (-1) = Fail f.
Proof. apply (Resize_negative_never_returns 5 plain_abc (-1)). lia. Defined.

Lemma Set_then_Get_witness :
  ∃ lru', Set_ logged_abc "d" 3 = Ok lru'
    ∧ Pick lru' "d" = Ok (3, true, lru')
    ∧ ∃ lru'', Get lru' "d" = Ok (3, true, lru'').
Proof.
  apply (Set_then_Get logged_abc "d" 3);
    [compute_done | apply logged_abc_undisturbed].
Defined.

Lemma Set_new_without_eviction_witness :
  ∃ lru', Set_ (New 0 [] : cache) "a" 0 = Ok lru'
    ∧ contents lru' = mkItem "a" 0 :: contents (New 0 [] : cache)
    ∧ trace (state lru') = trace (state (New 0 [] : cache))
    ∧ user (state lru') = user (state (New 0 [] : cache))
    ∧ size (state lru') = size (state (New 0 [] : cache)).
Proof.
  apply (Set_new_without_eviction (New 0 [] : cache) "a" 0);
    [compute_done | compute_done | left; simpl; lia].
Defined.

Lemma Set_evicts_oldest_witness :
  ∃ it lru', last (contents logged_abc) = Some it
    ∧ Set_ logged_abc "d" 3 = Ok lru'
    ∧ contents lru' = mkItem "d" 3 :: removelast (contents logged_abc)
    ∧ calls (state lru')
      = calls (state logged_abc) ++ match evicted logged_abc with
                                    | Some _ => [(key it, value it)]
                                    | None => []
                                    end.
Proof.
  apply (Set_evicts_oldest logged_abc "d" 3);
    [compute_done | apply logged_abc_undisturbed | compute_done | compute_done].
Defined.

Lemma Get_hit_or_miss_witness :
  (∃ v lru', Get plain_abc "b" = Ok (v, true, lru')
     ∧ mkItem "b" v ∈ contents plain_abc
     ∧ contents lru' = mkItem "b" v :: filter (λ it, key it ≠ "b") (contents plain_abc)
     ∧ Len lru' = Len plain_abc
     ∧ trace (state lru') = trace (state plain_abc)
     ∧ user (state lru') = user (state plain_abc))
  ∧ Get plain_abc "z" = Ok (zero, false, plain_abc).
Proof.
  split.
  - destruct (Get_hit_or_miss plain_abc "b") as [Hhit _]; [compute_done|].
    apply Hhit. compute_done.
  - destruct (Get_hit_or_miss plain_abc "z") as [_ Hmiss]; [compute_done|].
    apply Hmiss. compute_done.
Defined.

Lemma Backward_reverses_All_witness :
  ∃ kvs, All 3 plain_abc collect [] = Ok (kvs, plain_abc)
    ∧ Backward 3 plain_abc collect [] = Ok (reverse kvs, plain_abc)
    ∧ kvs = pairs (contents plain_abc).
Proof. apply (Backward_reverses_All plain_abc 3); [compute_done | by vm_compute]. Defined.

Lemma traversal_stops_early_witness :
  All 3 plain_abc (pure_consumer (λ k v acc, (false, acc ++ [(k, v)]))) []
  = Ok (visit (λ k v acc, (false, acc ++ [(k, v)])) [] (pairs (contents plain_abc)),
        plain_abc)
  ∧ Backward 3 plain_abc (pure_consumer (λ k v acc, (false, acc ++ [(k, v)]))) []
    = Ok (visit (λ k v acc, (false, acc ++ [(k, v)])) []
            (pairs (reverse (contents plain_abc))),
          plain_abc).
Proof.
  apply (traversal_stops_early (λ k v acc, (false, acc ++ [(k, v)])) plain_abc 3 []);
    [compute_done | by vm_compute].
Defined.

Lemma keys_distinct_witness : NoDup (key <$> contents plain_abc).
Proof. apply (keys_distinct plain_abc), plain_abc_reachable. Defined.

Lemma capacity_bound_witness :
  ∃ lru', run_ops 5 (New 2 [] : cache)
            [OpSet "a" 0; OpSet "b" 1; OpSet "c" 2; OpResize 1; OpGet "c";
             OpSet "d" 3] = Ok lru'
    ∧ Len lru' ≤ size (state lru').
Proof.
  set (os := [OpSet "a" 0; OpSet "b" 1; OpSet "c" 2; OpResize 1; OpGet "c";
              OpSet "d" 3]).
  destruct (result_Ok (λ l, 0 < size (state l)) (run_ops 5 (New 2 [] : cache) os))
    as (lru' & Hrun & Hsize); [by vm_compute|].
  exists lru'. split; [exact Hrun|].
  apply (capacity_bound 5 (New 2 [] : cache) os lru');
    [compute_done | by intros cb [=] | by vm_compute | exact Hrun | exact Hsize].
Defined.

Lemma wrapper_transparent_witness :
  MutexLRU.Set_ (MutexLRU.NewWithMutex 3 0 : mcache) "a" 0
  = (l ← Set_ (MutexLRU.lru (MutexLRU.NewWithMutex 3 0 : mcache)) "a" 0;
     Ok (tt, {| MutexLRU.lru := l |})).
Proof.
  by destruct (wrapper_transparent (MutexLRU.NewWithMutex 3 0 : mcache) O "a" 0 0)
    as [Hset _].
Defined.

Lemma wrapper_traversal_witness :
  MutexLRU.All 3 locked_abc (pure_consumer (λ k v acc, (true, acc ++ [(k, v)]))) []
  = Ok (visit (λ k v acc, (true, acc ++ [(k, v)])) []
          (pairs (contents (MutexLRU.lru locked_abc))), locked_abc)
  ∧ MutexLRU.Backward 3 locked_abc
      (pure_consumer (λ k v acc, (true, acc ++ [(k, v)]))) []
    = Ok (visit (λ k v acc, (true, acc ++ [(k, v)])) []
            (pairs (reverse (contents (MutexLRU.lru locked_abc)))), locked_abc).
Proof.
  apply (wrapper_traversal (λ k v acc, (true, acc ++ [(k, v)])) locked_abc 3 []);
    [compute_done | compute_done | by vm_compute].
Defined.

Lemma Get_saves_from_eviction_witness :
  ∃ v lru1 lru2,
    Get logged_abc "a" = Ok (v, true, lru1)
    ∧ Set_ lru1 "d" 3 = Ok lru2
    ∧ mkItem "a" v ∈ contents lru2
    ∧ Len lru2 = Len logged_abc.
Proof.
  apply (Get_saves_from_eviction logged_abc "a" "d" 3);
    [compute_done | apply logged_abc_undisturbed | compute_done..].
Defined.

Lemma All_while_removing_witness :
  ∃ lru', All 3 logged_abc (removing (evicted logged_abc) id) []
          = Ok (pairs (contents logged_abc), lru')
    ∧ contents lru' = [] ∧ Len lru' = 0
    ∧ size (state lru') = size (state logged_abc).
Proof.
  apply (All_while_removing logged_abc 3);
    [compute_done | apply logged_abc_undisturbed | by vm_compute].
Defined.

Lemma All_panics_when_next_removed_witness :
  All 2 logged_abc
    (removing (evicted logged_abc) (λ k, if decide (k = "c") then "b" else k)) []
  = Fail Panic.
Proof.
  apply (All_panics_when_next_removed logged_abc 0 (mkItem "c" 2) (mkItem "b" 1)
           [mkItem "a" 0]);
    [compute_done | apply logged_abc_undisturbed | by vm_compute | done].
Defined.

Lemma wrapper_keeps_cache_consistent_witness :
  ∃ m', MutexLRU.run O (MutexLRU.CallSet unit "d" 3) locked_abc = Ok m'
    ∧ extends (state (MutexLRU.lru locked_abc)) (state (MutexLRU.lru m'))
    ∧ respectful (MutexLRU.lru m').
Proof.
  destruct (result_is_Ok (MutexLRU.run O (MutexLRU.CallSet unit "d" 3) locked_abc))
    as [m' Hrun]; [by vm_compute|].
  exists m'. split; [done|].
  apply (wrapper_keeps_cache_consistent (A := unit) O
           (MutexLRU.CallSet unit "d" 3) locked_abc m');
    [compute_done | apply locked_abc_respectful | exact I | exact Hrun].
Defined.
End more_witnesses.
